(** * Vimeo Transkript Generator: the resumable pipeline of [transcribe.py]

    A shallow embedding of [src/transcribe.py] (link extraction, the two
    checkpointed phases, the final status join, the command line driver)
    together with the properties of its specification.

    Conventions of the embedding:
    - Python [str] is [string], holding the UTF-8 encoding of the text. A
      character of the Python string is a code point, that is a first byte
      with its continuation bytes ([Str.chars]); [strip], slicing and the
      regular expression class [\d] work on characters. The characters
      that [\d] matches (Unicode category Nd) depend on the Unicode
      version of the interpreter and are a parameter, [decimal], of the
      functions that use the class.
    - Python [float] is IEEE 754 binary64, [spec_float] with addition
      [SFadd prec emax].
    - Python [dict] used as a map is [gmap string _]; the dict whose
      iteration order the code relies on ([unique_ids]) is an association
      list in insertion order; the Python [set] is a [gset string].
    - JSON values stored in the checkpoint are [jval]; floating point
      numbers occur there only rounded to one decimal ([round(x, 1)]) and
      are kept as an integer count of tenths (the sign of a zero is not
      kept).
    - [print] and the counters that only feed [print] are left out; the
      counter [total_audio_duration] is kept, because its final value is
      passed to [format_duration], which raises on a value that is not
      finite.
    - Paths are joined with "/" (POSIX [os.path.join]). *)

From Stdlib Require Import ZArith NArith Ascii String List Sorted Permutation.
From Stdlib Require Import Floats.SpecFloat.
From stdpp Require Import base option gmap strings list sorting fin_maps fin_sets.

Local Open Scope string_scope.
Local Open Scope list_scope.

(** ** Strings *)

Module Str.

(** [c.lower()] on one ASCII character. *)
Definition lower_ascii (c : ascii) : ascii :=
  let n := nat_of_ascii c in
  if (65 <=? n)%nat && (n <=? 90)%nat then ascii_of_nat (n + 32) else c.

(** [s.lower()], as far as the letters A to Z go. The code uses [lower]
    only to ask whether "vimeo" occurs in the result; the two characters
    outside ASCII whose lower case contains an ASCII letter (U+0130, which
    gives "i" followed by U+0307, and U+212A, which gives "k") cannot
    complete an occurrence of "vimeo", so the other letters do not matter
    to that question. *)
Fixpoint lower (s : string) : string :=
  match s with
  | EmptyString => EmptyString
  | String c s' => String (lower_ascii c) (lower s')
  end.

(** [needle in s] *)
Fixpoint contains (needle s : string) : bool :=
  String.prefix needle s ||
  match s with
  | EmptyString => false
  | String _ s' => contains needle s'
  end.

(** *** Characters *)

Definition byte (c : ascii) : N := N_of_ascii c.

(** The bytes 0x80 to 0xBF continue a character. *)
Definition is_continuation (c : ascii) : bool :=
  (128 <=? byte c)%N && (byte c <? 192)%N.

Definition starts_inside (s : string) : bool :=
  match s with
  | EmptyString => false
  | String c _ => is_continuation c
  end.

(** The characters of a string, in order, each as the bytes that encode
    it: a character starts at every byte that is not a continuation byte. *)
Fixpoint chars (s : string) : list string :=
  match s with
  | EmptyString => []
  | String c s' =>
      match chars s' with
      | ch :: rest =>
          if starts_inside ch then String c ch :: rest
          else String c EmptyString :: ch :: rest
      | [] => [String c EmptyString]
      end
  end.

(** ["".join(l)] *)
Fixpoint concat (l : list string) : string :=
  match l with
  | [] => EmptyString
  | ch :: rest => ch ++ concat rest
  end.

(** [ord(ch)]: the code point a character encodes; bytes that are no
    (shortest) encoding of a code point give none. *)
Definition codepoint (ch : string) : option N :=
  match ch with
  | String c0 EmptyString =>
      if (byte c0 <? 128)%N then Some (byte c0) else None
  | String c0 (String c1 EmptyString) =>
      let v := ((byte c0 - 192) * 64 + (byte c1 - 128))%N in
      if (192 <=? byte c0)%N && (byte c0 <? 224)%N && (128 <=? v)%N then Some v else None
  | String c0 (String c1 (String c2 EmptyString)) =>
      let v := ((byte c0 - 224) * 4096 + (byte c1 - 128) * 64 + (byte c2 - 128))%N in
      if (224 <=? byte c0)%N && (byte c0 <? 240)%N && (2048 <=? v)%N then Some v else None
  | String c0 (String c1 (String c2 (String c3 EmptyString))) =>
      let v := ((byte c0 - 240) * 262144 + (byte c1 - 128) * 4096
                + (byte c2 - 128) * 64 + (byte c3 - 128))%N in
      if (240 <=? byte c0)%N && (byte c0 <? 248)%N && (65536 <=? v)%N && (v <=? 1114111)%N
      then Some v else None
  | _ => None
  end.

(** A character passes a test on code points. *)
Definition char_is (test : N → bool) (ch : string) : bool :=
  match codepoint ch with
  | Some cp => test cp
  | None => false
  end.

(** [ch.isspace()], the characters [str.strip()] removes: U+0009 to
    U+000D, U+001C to U+0020, U+0085, U+00A0, U+1680, U+2000 to U+200A,
    U+2028, U+2029, U+202F, U+205F and U+3000. *)
Definition is_space (cp : N) : bool :=
  ((9 <=? cp) && (cp <=? 13) || (28 <=? cp) && (cp <=? 32) || (cp =? 133) || (cp =? 160)
   || (cp =? 5760) || (8192 <=? cp) && (cp <=? 8202) || (cp =? 8232) || (cp =? 8233)
   || (cp =? 8239) || (cp =? 8287) || (cp =? 12288))%N.

Fixpoint take_while {A : Type} (test : A → bool) (l : list A) : list A :=
  match l with
  | [] => []
  | x :: rest => if test x then x :: take_while test rest else []
  end.

Fixpoint drop_while {A : Type} (test : A → bool) (l : list A) : list A :=
  match l with
  | [] => []
  | x :: rest => if test x then drop_while test rest else l
  end.

(** An element is dropped when it passes the test and everything after it
    has been dropped. *)
Fixpoint drop_while_end {A : Type} (test : A → bool) (l : list A) : list A :=
  match l with
  | [] => []
  | x :: rest =>
      match drop_while_end test rest with
      | [] => if test x then [] else [x]
      | kept => x :: kept
      end
  end.

(** [s.lstrip()], [s.rstrip()], [s.strip()] *)
Definition lstrip (s : string) : string := concat (drop_while (char_is is_space) (chars s)).

Definition rstrip (s : string) : string :=
  concat (drop_while_end (char_is is_space) (chars s)).

Definition strip (s : string) : string := rstrip (lstrip s).

(** [s.split(sep)[0]] for a one-character separator: the part before the
    first [sep], the whole string when there is none. *)
Fixpoint before (sep : ascii) (s : string) : string :=
  match s with
  | EmptyString => EmptyString
  | String c s' => if Ascii.eqb c sep then EmptyString else String c (before sep s')
  end.

(** The longest prefix of characters of the class [decimal]: what a greedy
    [\d*] consumes. *)
Definition digits (decimal : N → bool) (s : string) : string :=
  concat (take_while (char_is decimal) (chars s)).

(** [s[len(p):]] when [s] starts with [p]. *)
Fixpoint drop_prefix (p s : string) : option string :=
  match p, s with
  | EmptyString, _ => Some s
  | String a p', String b s' => if Ascii.eqb a b then drop_prefix p' s' else None
  | String _ _, EmptyString => None
  end.

(** [s[:n]]: the first [n] characters. *)
Definition take (n : nat) (s : string) : string := concat (list.take n (chars s)).

(** [sep.join(parts)] *)
Fixpoint join (sep : string) (parts : list string) : string :=
  match parts with
  | [] => ""
  | [p] => p
  | p :: rest => p ++ sep ++ join sep rest
  end.

(** Decimal rendering of a natural number, most significant digit first. *)
Fixpoint of_nat_fuel (fuel n : nat) (acc : string) : string :=
  match fuel with
  | O => acc
  | S fuel' =>
      let acc' := String (ascii_of_nat (48 + n mod 10)) acc in
      if (n <? 10)%nat then acc' else of_nat_fuel fuel' (n / 10) acc'
  end.

Definition of_nat (n : nat) : string := of_nat_fuel (S n) n "".

(** [str(z)] for an integer. *)
Definition of_Z (z : Z) : string :=
  if (z <? 0)%Z then "-" ++ of_nat (Z.to_nat (- z)) else of_nat (Z.to_nat z).

End Str.

(** ** Data model *)

(** A JSON value of the checkpoint file: a string or a number. *)
Inductive jval :=
| JStr (s : string)
| JNum (tenths : Z).

(** [str(v)]; a number prints with its one decimal. *)
Definition py_str (v : jval) : string :=
  match v with
  | JStr s => s
  | JNum t =>
      (if (t <? 0)%Z then "-" else "") ++
      Str.of_Z (Z.abs t / 10) ++ "." ++ Str.of_Z (Z.abs t mod 10)
  end.

(** The checkpoint: [{"downloaded": {...}, "transcribed": {...}}]. Either
    key may be missing in a file written by hand, which is why the code
    reads them with [progress.get(key, {})]. Each sub-mapping sends a
    Vimeo id to a dict of JSON values. *)
Record progress := {
  pg_downloaded : option (gmap string (gmap string jval));
  pg_transcribed : option (gmap string (gmap string jval))
}.

(** A file of the file system: a checkpoint that [json.load] can read
    back, or anything else. *)
Inductive fcontent :=
| Json (p : progress)
| Blob.

(** What the run did to the outside, oldest event first: the calls of the
    two collaborators and the writes of the progress file. The trace is
    kept next to the file system to state what a run called and wrote. *)
Inductive event :=
| EvFetch (vimeo_id url : string)
| EvTranscribe (vimeo_id audio_path : string)
| EvSave (progress_file : string) (snapshot : progress).

Record world := {
  files : gmap string fcontent;
  trace : list event
}.

(** Exceptions the code itself raises and does not catch. *)
Inductive exn :=
| KeyError (key : string)
| TypeError
| JSONDecodeError
| ValueError
| OverflowError.

(** ** Floating point numbers *)

(** [x + y] on floats. *)
Definition float_add (x y : spec_float) : spec_float := SFadd 53 1024 x y.

(** [float(z)] *)
Definition float_of_Z (z : Z) : spec_float := binary_normalize 53 1024 z 0 false.

(** The two ways [int(x)] fails on a float, with the text [str(ex)] of the
    exception it raises. *)
Inductive int_error :=
| NaNToInteger
| InfinityToInteger.

Definition int_error_text (err : int_error) : string :=
  match err with
  | NaNToInteger => "cannot convert float NaN to integer"
  | InfinityToInteger => "cannot convert float infinity to integer"
  end.

Definition int_error_exn (err : int_error) : exn :=
  match err with
  | NaNToInteger => ValueError
  | InfinityToInteger => OverflowError
  end.

(** [int(x)]: the value of a finite float, [±m * 2^e], cut towards zero. *)
Definition py_int (x : spec_float) : int_error + Z :=
  match x with
  | S754_nan => inl NaNToInteger
  | S754_infinity _ => inl InfinityToInteger
  | S754_zero _ => inr 0%Z
  | S754_finite s m e =>
      let v := Z.shiftl (Z.pos m) e in inr (if s then (- v)%Z else v)
  end.

(** [round(x, 1)] of a finite float, as a count of tenths: ten times the
    value of [x], rounded to the nearest integer, a tie to the even one. *)
Definition round1 (x : spec_float) : Z :=
  match x with
  | S754_finite s m e =>
      let n := (10 * Z.pos m)%Z in
      let q :=
        if (0 <=? e)%Z then (n * 2 ^ e)%Z
        else
          let d := (2 ^ (- e))%Z in
          let q0 := (n / d)%Z in
          let r := (n mod d)%Z in
          if (d <? 2 * r)%Z || ((2 * r =? d)%Z && Z.odd q0) then (q0 + 1)%Z else q0 in
      if s then (- q)%Z else q
  | _ => 0%Z
  end.

(** A spreadsheet cell value as openpyxl returns it: empty, text or an
    integer (the other kinds of values are not modelled). *)
Inductive cell :=
| CNone
| CStr (s : string)
| CInt (z : Z).

(** Python truthiness of a cell value. *)
Definition truthy (c : cell) : bool :=
  match c with
  | CNone => false
  | CStr s => negb (String.eqb s "")
  | CInt z => negb (z =? 0)%Z
  end.

(** [str(c)] *)
Definition str (c : cell) : string :=
  match c with
  | CNone => "None"
  | CStr s => s
  | CInt z => Str.of_Z z
  end.

(** One data row of the sheet: the columns [read_excel] looks at. *)
Record sheet_row := {
  c_order : cell;
  c_modul : cell;
  c_bereich : cell;
  c_kategorie : cell;
  c_uebung : cell;
  c_video_kurz : cell;
  c_video_lang : cell
}.

(** One entry of [read_excel]: a link occurrence. *)
Record entry := {
  row : nat;
  order : cell;
  modul : string;
  bereich : string;
  kategorie : string;
  uebung : string;
  link_typ : string;
  url : string;
  url_clean : string;
  vimeo_id : option string
}.

(** ** Configuration *)

Definition OUTPUT_DIR : string := "output".
Definition AUDIO_DIR : string := OUTPUT_DIR ++ "/" ++ "audio".
Definition PROGRESS_FILE : string := OUTPUT_DIR ++ "/" ++ "progress.json".

(** ** Helper functions *)

(** [f"{n:02d}"]: at least two characters, padded with a zero. *)
Definition pad2 (n : Z) : string :=
  if (0 <=? n)%Z && (n <? 10)%Z then "0" ++ Str.of_Z n else Str.of_Z n.

(** [m, s = divmod(seconds, 60); h, m = divmod(m, 60)] on an integer;
    Python's [divmod] by a positive number rounds down, as [Z.div] and
    [Z.modulo] do. *)
Definition hms (seconds : Z) : Z * Z * Z :=
  let m := (seconds / 60)%Z in
  let s := (seconds mod 60)%Z in
  ((m / 60)%Z, (m mod 60)%Z, s).

(** The two [return] statements of [format_duration], from [int(seconds)]. *)
Definition format_hms (seconds : Z) : string :=
  let '(h, m, s) := hms seconds in
  if (0 <? h)%Z
  then Str.of_Z h ++ "h " ++ pad2 m ++ "m " ++ pad2 s ++ "s"
  else Str.of_Z m ++ "m " ++ pad2 s ++ "s".

Definition format_duration (seconds : spec_float) : int_error + string :=
  match py_int seconds with
  | inl err => inl err
  | inr n => inr (format_hms n)
  end.

(** The pattern [vimeo\.com/(\d+)] matched at the start of [s]: group 1,
    the greedy run of characters of the class [\d], which must not be
    empty. *)
Definition match_here (decimal : N → bool) (s : string) : option string :=
  match Str.drop_prefix "vimeo.com/" s with
  | Some rest =>
      match Str.digits decimal rest with
      | EmptyString => None
      | ds => Some ds
      end
  | None => None
  end.

(** [re.search(r"vimeo\.com/(\d+)", s)]: the match at the leftmost position
    that has one. *)
Fixpoint search_vimeo_id (decimal : N → bool) (s : string) : option string :=
  match match_here decimal s with
  | Some ds => Some ds
  | None =>
      match s with
      | EmptyString => None
      | String _ s' => search_vimeo_id decimal s'
      end
  end.

Definition extract_vimeo_id (decimal : N → bool) (url : string) : option string :=
  if String.eqb url "" then None else search_vimeo_id decimal url.

Definition clean_vimeo_url (url : cell) : string :=
  if negb (truthy url) then "" else Str.strip (Str.before "?" (str url)).

Definition path_exists (fs : gmap string fcontent) (path : string) : bool :=
  bool_decide (is_Some (fs !! path)).

Definition empty_progress : progress :=
  {| pg_downloaded := Some ∅; pg_transcribed := Some ∅ |}.

Definition load_progress (progress_file : string) (w : world) : exn + progress :=
  if path_exists (files w) progress_file then
    match files w !! progress_file with
    | Some (Json p) => inr p
    | _ => inl JSONDecodeError
    end
  else inr empty_progress.

Definition save_progress (progress_file : string) (p : progress) (w : world) : world :=
  {| files := <[progress_file := Json p]> (files w);
     trace := trace w ++ [EvSave progress_file p] |}.

(** ** Phase 1: reading the sheet *)

(** [str(c) if c else ""] *)
Definition str_or_empty (c : cell) : string := if truthy c then str c else "".

Definition link_entry (decimal : N → bool) (r : nat) (sr : sheet_row) (typ : string)
    (video : cell) : entry :=
  let url := clean_vimeo_url video in
  let vimeo_id := extract_vimeo_id decimal url in
  {| row := r;
     order := c_order sr;
     modul := str_or_empty (c_modul sr);
     bereich := str_or_empty (c_bereich sr);
     kategorie := str_or_empty (c_kategorie sr);
     uebung := str_or_empty (c_uebung sr);
     link_typ := typ;
     url := Str.strip (str video);
     url_clean := url;
     vimeo_id := vimeo_id |}.

(** [video and "vimeo" in str(video).lower()] (see [Str.lower]) *)
Definition is_vimeo_link (video : cell) : bool :=
  truthy video && Str.contains "vimeo" (Str.lower (str video)).

Definition row_entries (decimal : N → bool) (r : nat) (sr : sheet_row) : list entry :=
  (if is_vimeo_link (c_video_kurz sr)
   then [link_entry decimal r sr "kurz" (c_video_kurz sr)] else []) ++
  (if is_vimeo_link (c_video_lang sr)
   then [link_entry decimal r sr "lang" (c_video_lang sr)] else []).

(** The loop [for row in range(2, ws.max_row + 1)], [r] being the number of
    the first row of [rows]. *)
Fixpoint read_rows (decimal : N → bool) (r : nat) (rows : list sheet_row) : list entry :=
  match rows with
  | [] => []
  | sr :: rest => row_entries decimal r sr ++ read_rows decimal (S r) rest
  end.

(** [ws] holds the rows of the sheet below its header row. *)
Definition read_excel (decimal : N → bool) (ws : list sheet_row) : list entry :=
  read_rows decimal 2 ws.

(** ** The external collaborators *)

(** [ydl.download([url])] under [yt_dlp.YoutubeDL(ydl_opts)]: it returns a
    code the caller drops, or raises an [Exception] whose [str] is [msg];
    either way it may have changed the file system. *)
Inductive fetch_result :=
| FReturn (code : Z)
| FRaise (msg : string).

Definition fetcher : Type :=
  string → string → gmap string fcontent → fetch_result * gmap string fcontent.

(** [model.transcribe(audio_path, ...)] followed by the consumption of the
    lazy [segments]: the segment texts, the float [info.duration] and the
    wall-clock time of the call rounded to tenths of a second
    ([round(duration, 1)], a difference of two clock readings), or an
    [Exception] whose [str] is [msg]. *)
Inductive transcribe_result :=
| TReturn (segments : list string) (duration : spec_float) (processing_time_s : Z)
| TRaise (msg : string).

Definition transcriber : Type :=
  string → gmap string fcontent → transcribe_result * gmap string fcontent.

(** ** State of a phase loop *)

(** [st_map] is the local dict of the loop ([downloaded] in phase 2,
    [transcribed] in phase 3), [st_progress] the [progress] dict. In the
    states a run goes through, the sub-mapping of [st_progress] for the
    running phase, when present, is the same Python object as [st_map].
    [st_audio_total] is the counter [total_audio_duration] of phase 3;
    phase 2 has no such counter and leaves it alone. *)
Record state := {
  st_map : gmap string (gmap string jval);
  st_progress : progress;
  st_world : world;
  st_audio_total : spec_float
}.

(** The state a phase loop starts in: the local dict is
    [progress.get(key, {})], the counter is 0. *)
Definition start_of (m : option (gmap string (gmap string jval))) (p : progress) (w : world)
  : state :=
  {| st_map := default ∅ m; st_progress := p; st_world := w;
     st_audio_total := S754_zero false |}.

(** The state after the outside changed. *)
Definition with_world (w : world) (st : state) : state :=
  {| st_map := st_map st; st_progress := st_progress st; st_world := w;
     st_audio_total := st_audio_total st |}.

(** [total_audio_duration += duration] *)
Definition add_audio (duration : spec_float) (st : state) : state :=
  {| st_map := st_map st; st_progress := st_progress st; st_world := st_world st;
     st_audio_total := float_add (st_audio_total st) duration |}.

(** How a loop ends: normally, or with an exception that unwinds out of
    the function; the state reached is kept in both cases. *)
Inductive outcome :=
| Normal (st : state)
| Raised (e : exn) (st : state).

Definition final (o : outcome) : state :=
  match o with Normal st => st | Raised _ st => st end.

(** [r.get("status") == s] *)
Definition status_is (r : gmap string jval) (s : string) : bool :=
  match r !! "status" with
  | Some (JStr t) => String.eqb t s
  | _ => false
  end.

(** [vid in m and m[vid].get("status") == s] *)
Definition has_status (m : gmap string (gmap string jval)) (vid s : string) : bool :=
  match m !! vid with
  | Some r => status_is r s
  | None => false
  end.

(** [os.path.exists(v)] for a value read from the checkpoint; a float is
    rejected with a [TypeError]. *)
Definition os_path_exists (fs : gmap string fcontent) (v : jval) : exn + bool :=
  match v with
  | JStr p => inr (path_exists fs p)
  | JNum _ => inl TypeError
  end.

Definition ok_download (audio_path : string) : gmap string jval :=
  <["path" := JStr audio_path]> {["status" := JStr "ok"]}.

Definition error_record (msg : string) : gmap string jval :=
  <["error" := JStr msg]> {["status" := JStr "error"]}.

Definition ok_transcript (full_text : string) (audio_duration_s processing_time_s : Z)
  : gmap string jval :=
  <["processing_time_s" := JNum processing_time_s]>
    (<["audio_duration_s" := JNum audio_duration_s]>
       (<["text" := JStr full_text]> {["status" := JStr "ok"]})).

Definition add_event (ev : event) (fs : gmap string fcontent) (w : world) : world :=
  {| files := fs; trace := trace w ++ [ev] |}.

(** ** Phase 2: audio download *)

(** [for e in entries: vid = e["vimeo_id"];
     if vid and vid not in unique_ids: unique_ids[vid] = e["url_clean"]].
    The dict keeps insertion order, which the download loop follows. *)
Definition in_keys (vid : string) (unique_ids : list (string * string)) : bool :=
  existsb (λ kv, String.eqb kv.1 vid) unique_ids.

Definition nonempty (s : string) : bool := negb (String.eqb s "").

Fixpoint collect_unique_ids (entries : list entry) (unique_ids : list (string * string))
  : list (string * string) :=
  match entries with
  | [] => unique_ids
  | e :: rest =>
      collect_unique_ids rest
        match vimeo_id e with
        | Some vid =>
            if nonempty vid && negb (in_keys vid unique_ids)
            then unique_ids ++ [(vid, url_clean e)]
            else unique_ids
        | None => unique_ids
        end
  end.

Definition audio_path_of (vimeo_id : string) : string :=
  AUDIO_DIR ++ "/" ++ vimeo_id ++ ".mp3".

Definition outtmpl_of (vimeo_id : string) : string :=
  AUDIO_DIR ++ "/" ++ vimeo_id ++ ".%(ext)s".

(** [downloaded[vimeo_id] = r]. When [progress] has the key "downloaded",
    the dict stored there is the very object [downloaded] (it was obtained
    by [progress.get("downloaded", {})], or bound by
    [progress["downloaded"] = downloaded]), so the store shows through. *)
Definition set_downloaded (vimeo_id : string) (r : gmap string jval) (st : state) : state :=
  let downloaded := <[vimeo_id := r]> (st_map st) in
  {| st_map := downloaded;
     st_progress :=
       match pg_downloaded (st_progress st) with
       | Some _ => {| pg_downloaded := Some downloaded;
                      pg_transcribed := pg_transcribed (st_progress st) |}
       | None => st_progress st
       end;
     st_world := st_world st;
     st_audio_total := st_audio_total st |}.

(** [progress["downloaded"] = downloaded; save_progress(PROGRESS_FILE, progress)] *)
Definition commit_downloaded (st : state) : state :=
  let progress := {| pg_downloaded := Some (st_map st);
                     pg_transcribed := pg_transcribed (st_progress st) |} in
  {| st_map := st_map st;
     st_progress := progress;
     st_world := save_progress PROGRESS_FILE progress (st_world st);
     st_audio_total := st_audio_total st |}.

(** The skip test of the download loop:
    [if vimeo_id in downloaded and downloaded[vimeo_id].get("status") == "ok":
         if os.path.exists(downloaded[vimeo_id]["path"]): ... continue] *)
Definition download_skip (downloaded : gmap string (gmap string jval))
    (fs : gmap string fcontent) (vimeo_id : string) : exn + bool :=
  match downloaded !! vimeo_id with
  | Some r =>
      if status_is r "ok" then
        match r !! "path" with
        | Some p => os_path_exists fs p
        | None => inl (KeyError "path")
        end
      else inr false
  | None => inr false
  end.

(** The [try] block of the download loop ([os.path.getsize] only feeds
    [print]). *)
Definition download_attempt (ydl : fetcher) (vimeo_id url : string) (st : state) : state :=
  let audio_path := audio_path_of vimeo_id in
  let '(res, fs) := ydl (outtmpl_of vimeo_id) url (files (st_world st)) in
  let st1 := with_world (add_event (EvFetch vimeo_id url) fs (st_world st)) st in
  match res with
  | FReturn _ =>
      if path_exists fs audio_path
      then set_downloaded vimeo_id (ok_download audio_path) st1
      else set_downloaded vimeo_id (error_record "Datei nicht gefunden nach Download") st1
  | FRaise msg => set_downloaded vimeo_id (error_record (Str.take 200 msg)) st1
  end.

(** One turn of [for i, (vimeo_id, url) in enumerate(unique_ids.items(), 1)]. *)
Definition download_item (ydl : fetcher) (vimeo_id url : string) (st : state) : outcome :=
  match download_skip (st_map st) (files (st_world st)) vimeo_id with
  | inl e => Raised e st
  | inr true => Normal st
  | inr false => Normal (commit_downloaded (download_attempt ydl vimeo_id url st))
  end.

Fixpoint download_loop (ydl : fetcher) (unique_ids : list (string * string)) (st : state)
  : outcome :=
  match unique_ids with
  | [] => Normal st
  | (vimeo_id, url) :: rest =>
      match download_item ydl vimeo_id url st with
      | Normal st' => download_loop ydl rest st'
      | Raised e st' => Raised e st'
      end
  end.

(** [download_audio(entries, progress)]; the returned [downloaded] is the
    [st_map] of the outcome. *)
Definition download_audio (ydl : fetcher) (entries : list entry) (progress : progress)
    (w : world) : outcome :=
  let unique_ids := collect_unique_ids entries [] in
  download_loop ydl unique_ids (start_of (pg_downloaded progress) progress w).

(** ** Phase 3: transcription *)

(** [for e in entries: vid = e["vimeo_id"];
     if vid and vid in downloaded and downloaded[vid].get("status") == "ok":
         unique_ids_to_transcribe.add(vid)] *)
Fixpoint collect_ids_to_transcribe (entries : list entry)
    (downloaded : gmap string (gmap string jval)) (unique_ids_to_transcribe : gset string)
  : gset string :=
  match entries with
  | [] => unique_ids_to_transcribe
  | e :: rest =>
      collect_ids_to_transcribe rest downloaded
        match vimeo_id e with
        | Some vid =>
            if nonempty vid && has_status downloaded vid "ok"
            then {[vid]} ∪ unique_ids_to_transcribe
            else unique_ids_to_transcribe
        | None => unique_ids_to_transcribe
        end
  end.

(** [sorted(s)] on a set of strings: ascending in the order of [str]. *)
Definition sorted (s : gset string) : list string :=
  merge_sort String.le (elements s).

(** [transcribed[vimeo_id] = r], with the same sharing as in phase 2. *)
Definition set_transcribed (vimeo_id : string) (r : gmap string jval) (st : state) : state :=
  let transcribed := <[vimeo_id := r]> (st_map st) in
  {| st_map := transcribed;
     st_progress :=
       match pg_transcribed (st_progress st) with
       | Some _ => {| pg_downloaded := pg_downloaded (st_progress st);
                      pg_transcribed := Some transcribed |}
       | None => st_progress st
       end;
     st_world := st_world st;
     st_audio_total := st_audio_total st |}.

(** [progress["transcribed"] = transcribed; save_progress(PROGRESS_FILE, progress)] *)
Definition commit_transcribed (st : state) : state :=
  let progress := {| pg_downloaded := pg_downloaded (st_progress st);
                     pg_transcribed := Some (st_map st) |} in
  {| st_map := st_map st;
     st_progress := progress;
     st_world := save_progress PROGRESS_FILE progress (st_world st);
     st_audio_total := st_audio_total st |}.

(** The [try] block of the transcription loop with its [except] clause.
    After the call the segments are joined, the duration is added to the
    counter and the ok record is stored; the [print] that follows formats
    [info.duration] with [format_duration], and when that raises (the
    duration is not finite) the [except] clause replaces the record just
    stored by an error record, the counter keeping the duration. The other
    arguments of that [print] do not raise: the quotient is taken only for
    a positive divisor, and the second [format_duration] gets a difference
    of two clock readings. *)
Definition transcribe_attempt (model : transcriber) (vimeo_id audio_path : string)
    (st : state) : state :=
  let '(res, fs) := model audio_path (files (st_world st)) in
  let st1 := with_world (add_event (EvTranscribe vimeo_id audio_path) fs (st_world st)) st in
  match res with
  | TReturn segments duration processing_time_s =>
      let full_text := Str.join " " (map Str.strip segments) in
      let st2 := add_audio duration st1 in
      match format_duration duration with
      | inr _ =>
          set_transcribed vimeo_id
            (ok_transcript full_text (round1 duration) processing_time_s) st2
      | inl err =>
          set_transcribed vimeo_id (error_record (Str.take 200 (int_error_text err))) st2
      end
  | TRaise msg => set_transcribed vimeo_id (error_record (Str.take 200 msg)) st1
  end.

(** The skip test of the transcription loop:
    [if vimeo_id in transcribed and transcribed[vimeo_id].get("status") == "ok":
         ... continue] *)
Definition transcribe_skip (transcribed : gmap string (gmap string jval))
    (vimeo_id : string) : bool :=
  has_status transcribed vimeo_id "ok".

(** One turn of [for i, vimeo_id in enumerate(sorted(unique_ids_to_transcribe), 1)]. *)
Definition transcribe_item (model : transcriber)
    (downloaded : gmap string (gmap string jval)) (vimeo_id : string) (st : state)
  : outcome :=
  if transcribe_skip (st_map st) vimeo_id then Normal st
  else
    match downloaded !! vimeo_id with
    | None => Raised (KeyError vimeo_id) st
    | Some r =>
        match r !! "path" with
        | None => Raised (KeyError "path") st
        | Some audio_path =>
            match os_path_exists (files (st_world st)) audio_path with
            | inl e => Raised e st
            | inr false =>
                Normal (set_transcribed vimeo_id
                          (error_record "Audio-Datei nicht gefunden") st)
            | inr true =>
                Normal (commit_transcribed
                          (transcribe_attempt model vimeo_id (py_str audio_path) st))
            end
        end
    end.

Fixpoint transcribe_loop (model : transcriber)
    (downloaded : gmap string (gmap string jval)) (ids : list string) (st : state)
  : outcome :=
  match ids with
  | [] => Normal st
  | vimeo_id :: rest =>
      match transcribe_item model downloaded vimeo_id st with
      | Normal st' => transcribe_loop model downloaded rest st'
      | Raised e st' => Raised e st'
      end
  end.

(** The summary after the loop: [format_duration(total_audio_duration)],
    outside any [try], raises when the counter is not finite; the
    [format_duration(elapsed)] next to it gets a difference of two clock
    readings. *)
Definition print_summary (o : outcome) : outcome :=
  match o with
  | Raised e st => Raised e st
  | Normal st =>
      match format_duration (st_audio_total st) with
      | inl err => Raised (int_error_exn err) st
      | inr _ => Normal st
      end
  end.

(** [transcribe_audio(entries, downloaded, progress, model_size)] once the
    model is loaded; the returned [transcribed] is the [st_map] of the
    outcome. *)
Definition transcribe_audio (model : transcriber) (entries : list entry)
    (downloaded : gmap string (gmap string jval)) (progress : progress) (w : world)
  : outcome :=
  let unique_ids_to_transcribe := collect_ids_to_transcribe entries downloaded ∅ in
  print_summary
    (transcribe_loop model downloaded (sorted unique_ids_to_transcribe)
       (start_of (pg_transcribed progress) progress w)).

(** ** Phase 4: export *)

(** The three cells the status decision fills in. *)
Record verdict := {
  v_status : string;
  v_text : jval;
  v_audio_dur : jval
}.

(** [f"[Fehler: {r.get('error', '?')}]"] *)
Definition error_text (r : gmap string jval) : jval :=
  JStr ("[Fehler: " ++ py_str (default (JStr "?") (r !! "error")) ++ "]").

(** The [if]/[elif] chain "Status bestimmen" of [export_results]. *)
Definition row_status (e : entry) (transcribed downloaded : gmap string (gmap string jval))
  : exn + verdict :=
  (* [not vid] holds for [None] and for the empty string alike *)
  let vid := default "" (vimeo_id e) in
  if negb (nonempty vid) then
    inr {| v_status := "keine_vimeo_id"; v_text := JStr ""; v_audio_dur := JStr "" |}
  else if has_status transcribed vid "ok" then
    let r := default ∅ (transcribed !! vid) in
    match r !! "text" with
    | Some text =>
        inr {| v_status := "ok"; v_text := text;
               v_audio_dur := default (JStr "") (r !! "audio_duration_s") |}
    | None => inl (KeyError "text")
    end
  else if has_status downloaded vid "error" then
    inr {| v_status := "download_fehlgeschlagen";
           v_text := error_text (default ∅ (downloaded !! vid));
           v_audio_dur := JStr "" |}
  else if has_status transcribed vid "error" then
    inr {| v_status := "transkription_fehlgeschlagen";
           v_text := error_text (default ∅ (transcribed !! vid));
           v_audio_dur := JStr "" |}
  else
    inr {| v_status := "nicht_verarbeitet"; v_text := JStr ""; v_audio_dur := JStr "" |}.

(** One line of the result sheet: the entry it comes from and its verdict
    (the cells "Vimeo_ID", "Audio_Dauer_s", "Transkript" and "Status"). *)
Record report_row := {
  rr_entry : entry;
  rr_vimeo_id : string;
  rr_verdict : verdict
}.

(** The loop [for row_idx, entry in enumerate(entries, 2)]: one line per
    entry, in the order of [entries]. *)
Fixpoint export_rows (entries : list entry)
    (transcribed downloaded : gmap string (gmap string jval)) : exn + list report_row :=
  match entries with
  | [] => inr []
  | e :: rest =>
      match row_status e transcribed downloaded with
      | inl ex => inl ex
      | inr v =>
          match export_rows rest transcribed downloaded with
          | inl ex => inl ex
          | inr rows =>
              inr ({| rr_entry := e; rr_vimeo_id := default "" (vimeo_id e);
                      rr_verdict := v |} :: rows)
          end
      end
  end.

(** ** The specification's vocabulary *)

(** The state of one phase for one item (specification, section 3), read
    off the dict stored for the item; the dict is kept as the payload. *)
Inductive phase_state :=
| Unset
| Ok (payload : gmap string jval)
| Error (payload : gmap string jval).

Definition state_of (m : gmap string (gmap string jval)) (vid : string) : phase_state :=
  match m !! vid with
  | None => Unset
  | Some r =>
      if status_is r "ok" then Ok r
      else if status_is r "error" then Error r
      else Unset
  end.

(** The ItemKey of a row reference: absent when no identifier was
    extracted. *)
Definition item_key (e : entry) : option string :=
  match vimeo_id e with
  | Some vid => if nonempty vid then Some vid else None
  | None => None
  end.

(** The row statuses of the Result Aggregator (specification, 4.4). *)
Inductive RowStatus :=
| no_identifier
| ok (transform : gmap string jval)
| fetch_failed (fetch : gmap string jval)
| transform_failed (transform : gmap string jval)
| not_processed.

(** The ordered decision list of 4.4, first match wins. *)
Definition aggregate (key : option string) (fetch transform : phase_state) : RowStatus :=
  match key, transform, fetch with
  | None, _, _ => no_identifier
  | Some _, Ok t, _ => ok t
  | Some _, _, Error f => fetch_failed f
  | Some _, Error t, _ => transform_failed t
  | Some _, _, _ => not_processed
  end.

(** How a row status shows in the result sheet. The text of an ok row is
    read with [transcribed[vid]["text"]], which raises when the stored
    record has no text. *)
Definition render (s : RowStatus) : exn + verdict :=
  match s with
  | no_identifier =>
      inr {| v_status := "keine_vimeo_id"; v_text := JStr ""; v_audio_dur := JStr "" |}
  | ok t =>
      match t !! "text" with
      | Some text =>
          inr {| v_status := "ok"; v_text := text;
                 v_audio_dur := default (JStr "") (t !! "audio_duration_s") |}
      | None => inl (KeyError "text")
      end
  | fetch_failed f =>
      inr {| v_status := "download_fehlgeschlagen"; v_text := error_text f;
             v_audio_dur := JStr "" |}
  | transform_failed t =>
      inr {| v_status := "transkription_fehlgeschlagen"; v_text := error_text t;
             v_audio_dur := JStr "" |}
  | not_processed =>
      inr {| v_status := "nicht_verarbeitet"; v_text := JStr ""; v_audio_dur := JStr "" |}
  end.

(** The skip-decision rule of 4.2, in the specification's words: the
    stored state is ok and the artifact it records (the file under its
    "path") still exists. *)
Definition recorded_artifact_exists (fs : gmap string fcontent) (r : gmap string jval) : bool :=
  match r !! "path" with
  | Some (JStr p) => path_exists fs p
  | _ => false
  end.

Definition spec_skip (fs : gmap string fcontent) (stored : option (gmap string jval)) : bool :=
  match stored with
  | Some r => status_is r "ok" && recorded_artifact_exists fs r
  | None => false
  end.

(** Order of first appearance of the elements of a list. *)
Fixpoint first_seen (ids : list string) : list string :=
  match ids with
  | [] => []
  | x :: rest => x :: filter (λ y, y ≠ x) (first_seen rest)
  end.

(** The ItemKeys of the entries, one per entry that has one. *)
Definition item_keys (entries : list entry) : list string := omap item_key entries.

(** The order in which each phase visits its items. *)
Definition fetch_order (entries : list entry) : list string :=
  (collect_unique_ids entries []).*1.

Definition transform_order (entries : list entry)
    (downloaded : gmap string (gmap string jval)) : list string :=
  sorted (collect_ids_to_transcribe entries downloaded ∅).



(** What a turn of a loop appended to the trace. *)
Definition appended (st st' : state) (evs : list event) : Prop :=
  trace (st_world st') = trace (st_world st) ++ evs.

(** The progress file holds the whole in-memory mapping. *)
Definition persisted (st : state) : Prop :=
  files (st_world st) !! PROGRESS_FILE = Some (Json (st_progress st)).

(** The record a download attempt stores, from what the collaborator did
    (the three assignments of the [try] block of [download_audio]). *)
Definition fetch_record (res : fetch_result) (fs : gmap string fcontent) (vid : string)
  : gmap string jval :=
  match res with
  | FReturn _ =>
      if path_exists fs (audio_path_of vid) then ok_download (audio_path_of vid)
      else error_record "Datei nicht gefunden nach Download"
  | FRaise msg => error_record (Str.take 200 msg)
  end.

(** The record a transcription attempt stores (the two assignments of the
    [try] block of [transcribe_audio]). *)
Definition transcript_record (res : transcribe_result) : gmap string jval :=
  match res with
  | TReturn segments duration processing_time_s =>
      match format_duration duration with
      | inr _ =>
          ok_transcript (Str.join " " (map Str.strip segments)) (round1 duration)
            processing_time_s
      | inl err => error_record (Str.take 200 (int_error_text err))
      end
  | TRaise msg => error_record (Str.take 200 msg)
  end.

(** What a transcription attempt adds to the counter. *)
Definition audio_of (res : transcribe_result) (total : spec_float) : spec_float :=
  match res with
  | TReturn _ duration _ => float_add total duration
  | TRaise _ => total
  end.


(** What the turns of the transcription loop for other items keep about
    the item [vid], [st0] being the state the loop started in: its stored
    state, the absence of a collaborator call for it, and the sharing
    between the local dict and [progress]. *)
Definition untouched (vid : string) (st0 s : state) : Prop :=
  st_map s !! vid = st_map st0 !! vid
  ∧ (∀ p, EvTranscribe vid p ∈ trace (st_world s) → EvTranscribe vid p ∈ trace (st_world st0))
  ∧ (pg_transcribed (st_progress s) = Some (st_map s)
     ∨ pg_transcribed (st_progress s) = None ∧ pg_transcribed (st_progress st0) = None).




(** A stored transform record that says ok carries its text. The code
    writes no other ([ok_transcript]). *)
Definition wf_transcribed (transcribed : gmap string (gmap string jval)) : Prop :=
  ∀ vid r, transcribed !! vid = Some r → status_is r "ok" = true → is_Some (r !! "text").

(** ** Sample inputs *)

Module Sample.

(** A class [\d] for the sample runs: the ASCII digits and the
    Arabic-Indic digits U+0660 to U+0669, two of the blocks of category
    Nd. *)
Definition decimal (cp : N) : bool :=
  ((48 <=? cp) && (cp <=? 57) || (1632 <=? cp) && (cp <=? 1641))%N.

Definition no_files : world := {| files := ∅; trace := [] |}.

(** A fetch that succeeds: it writes the mp3 named by the template. *)
Definition ydl_writes : fetcher :=
  λ outtmpl _ fs,
    let mp3 := String.append (String.substring 0 (String.length outtmpl - 7) outtmpl) "mp3" in
    (FReturn 0, <[mp3 := Blob]> fs).

(** A fetch that returns normally but leaves no file behind. *)
Definition ydl_silent : fetcher := λ _ _ fs, (FReturn 0, fs).

(** A fetch that raises. *)
Definition ydl_fails : fetcher := λ _ _ fs, (FRaise "timeout", fs).

(** A transcription of 1.2 s of audio. *)
Definition model_hallo : transcriber :=
  λ _ fs, (TReturn [" hallo "] (S754_finite false 5404319552844595 (-52)) 30, fs).

Definition model_fails : transcriber := λ _ fs, (TRaise "boom", fs).

(** A transcription whose reported duration is not a number. *)
Definition model_nan : transcriber := λ _ fs, (TReturn ["hallo"] S754_nan 30, fs).

(** The no-break space U+00A0. *)
Definition nbsp : string := String (ascii_of_nat 194) (String (ascii_of_nat 160) EmptyString).

(** A sheet row whose short link has its number in Arabic-Indic digits
    and a no-break space after it. *)
Definition row_arabic : sheet_row :=
  {| c_order := CInt 1; c_modul := CInt 5; c_bereich := CStr "A"; c_kategorie := CNone;
     c_uebung := CStr "Uebung"; c_video_kurz := CStr ("https://vimeo.com/١٢٣" ++ nbsp);
     c_video_lang := CNone |}.

(** Collaborators that fail on one item and work on the others. *)
Definition ydl_poisoned : fetcher :=
  λ outtmpl url fs,
    if String.eqb url "https://vimeo.com/200" then (FRaise "timeout", fs)
    else ydl_writes outtmpl url fs.

Definition model_poisoned : transcriber :=
  λ audio_path fs,
    if String.eqb audio_path "output/audio/100.mp3" then (TRaise "boom", fs)
    else model_hallo audio_path fs.

Definition link (r : nat) (typ u : string) (vid : option string) : entry :=
  {| row := r; order := CInt (Z.of_nat r); modul := "5"; bereich := "A"; kategorie := "K";
     uebung := "Uebung"; link_typ := typ; url := u; url_clean := u; vimeo_id := vid |}.

(** Two links, the later id first. *)
Definition e200 : entry := link 2 "kurz" "https://vimeo.com/200" (Some "200").
Definition e100 : entry := link 3 "kurz" "https://vimeo.com/100" (Some "100").
Definition entries : list entry := [e200; e100].


Definition one_fetched : gmap string (gmap string jval) :=
  {["100" := ok_download (audio_path_of "100")]}.

Definition one_transcribed : gmap string (gmap string jval) :=
  {["100" := ok_transcript "hallo" 12 30]}.

Definition fetch_timeout : gmap string (gmap string jval) :=
  {["200" := error_record "timeout"]}.

(** A sheet row whose short link names Vimeo but carries no number. *)
Definition row_without_id : sheet_row :=
  {| c_order := CInt 1; c_modul := CInt 5; c_bereich := CStr "A"; c_kategorie := CNone;
     c_uebung := CStr "Uebung"; c_video_kurz := CStr "https://VIMEO.com/manage/videos";
     c_video_lang := CNone |}.

(** The checkpoint of a run that fetched and transcribed item 100, on
    disk and in memory, with the audio file in place. *)
Definition done_100 : progress :=
  {| pg_downloaded := Some one_fetched; pg_transcribed := Some one_transcribed |}.

Definition disk_100 : world :=
  {| files := <[audio_path_of "100" := Blob]> {[PROGRESS_FILE := Json done_100]};
     trace := [] |}.

(** The same checkpoint after the audio file was deleted. *)
Definition disk_100_no_audio : world :=
  {| files := {[PROGRESS_FILE := Json done_100]}; trace := [] |}.

(** Item 100 fetched but not yet transcribed, its audio file deleted. *)
Definition fetched_100 : progress :=
  {| pg_downloaded := Some one_fetched; pg_transcribed := Some ∅ |}.

Definition disk_fetched_no_audio : world :=
  {| files := {[PROGRESS_FILE := Json fetched_100]}; trace := [] |}.

Definition state0 (m : gmap string (gmap string jval)) (p : progress) (w : world) : state :=
  {| st_map := m; st_progress := p; st_world := w; st_audio_total := S754_zero false |}.

(** A worklist: row 2 links item 100 twice (short and long), row 3 links
    item 200. *)
Definition worklist : list sheet_row :=
  [ {| c_order := CInt 1; c_modul := CInt 5; c_bereich := CStr "A"; c_kategorie := CNone;
       c_uebung := CStr "Eins"; c_video_kurz := CStr "https://vimeo.com/100?share=copy";
       c_video_lang := CStr " https://vimeo.com/100 " |};
    {| c_order := CInt 2; c_modul := CInt 5; c_bereich := CStr "A"; c_kategorie := CNone;
       c_uebung := CStr "Zwei"; c_video_kurz := CStr "https://vimeo.com/200";
       c_video_lang := CNone |} ].

(** The four phases in sequence on [worklist], from an empty checkpoint and
    an empty file system: id, status and text of each report line. *)
Definition pipeline (ydl : fetcher) (model : transcriber)
  : exn + list (string * string * jval) :=
  let entries := read_excel decimal worklist in
  let fetched := final (download_audio ydl entries empty_progress no_files) in
  let transcribed :=
    final (transcribe_audio model entries (st_map fetched) (st_progress fetched)
             (st_world fetched)) in
  match export_rows entries (st_map transcribed) (st_map fetched) with
  | inl ex => inl ex
  | inr report =>
      inr (map (λ rr, (rr_vimeo_id rr, v_status (rr_verdict rr), v_text (rr_verdict rr)))
             report)
  end.

End Sample.

(** ** Further functions of the script *)

(** *** The flat-text rendering of [export_results] *)

Definition dquote : ascii := ascii_of_nat 34.
Definition newline : ascii := ascii_of_nat 10.
Definition semicolon : ascii := ascii_of_nat 59.

(** [c in s] for a character. *)
Fixpoint has_char (c : ascii) (s : string) : bool :=
  match s with
  | EmptyString => false
  | String d s' => Ascii.eqb d c || has_char c s'
  end.

(** [s.replace(q, q + q)] for the quote character [q]. *)
Fixpoint double_quotes (s : string) : string :=
  match s with
  | EmptyString => EmptyString
  | String c s' =>
      if Ascii.eqb c dquote then String dquote (String dquote (double_quotes s'))
      else String c (double_quotes s')
  end.

(** One field of a csv line: quoted, with its quotes doubled, when it holds
    a semicolon, a quote or a newline; as it is otherwise. *)
Definition csv_field (v : string) : string :=
  if has_char semicolon v || has_char dquote v || has_char newline v
  then String dquote (double_quotes v ++ String dquote EmptyString)
  else v.

(** [";".join(... for v in values)] *)
Definition csv_line (values : list string) : string :=
  Str.join ";" (map csv_field values).

Definition headers : list string :=
  ["Order"; "Modul"; "Bereich"; "Kategorie"; "Uebung"; "Link_Typ"; "URL"; "Vimeo_ID";
   "Audio_Dauer_s"; "Transkript"; "Status"].

(** The list [values] of a report line, each value under [str]. *)
Definition row_values (rr : report_row) : list string :=
  let e := rr_entry rr in
  [str (order e); modul e; bereich e; kategorie e; uebung e; link_typ e; url e;
   rr_vimeo_id rr; py_str (v_audio_dur (rr_verdict rr)); py_str (v_text (rr_verdict rr));
   v_status (rr_verdict rr)].

(** [csv_lines]: the header line, then one line per report line. *)
Definition csv_lines (report : list report_row) : list string :=
  csv_line headers :: map (λ rr, csv_line (row_values rr)) report.

(** A reader of one csv line, to state that the rendering loses nothing:
    fields end at a semicolon outside quotes, a field that starts with a
    quote runs to its closing quote, a doubled quote inside stands for one
    quote. *)
Inductive csv_mode := FieldStart | Unquoted | Quoted | QuoteSeen.

Fixpoint csv_read (mode : csv_mode) (cur : string) (s : string) : list string :=
  match s with
  | EmptyString => [cur]
  | String c s' =>
      match mode with
      | FieldStart =>
          if Ascii.eqb c dquote then csv_read Quoted EmptyString s'
          else if Ascii.eqb c semicolon then cur :: csv_read FieldStart EmptyString s'
          else csv_read Unquoted (String c EmptyString) s'
      | Unquoted =>
          if Ascii.eqb c semicolon then cur :: csv_read FieldStart EmptyString s'
          else csv_read Unquoted (cur ++ String c EmptyString) s'
      | Quoted =>
          if Ascii.eqb c dquote then csv_read QuoteSeen cur s'
          else csv_read Quoted (cur ++ String c EmptyString) s'
      | QuoteSeen =>
          if Ascii.eqb c dquote then csv_read Quoted (cur ++ String dquote EmptyString) s'
          else if Ascii.eqb c semicolon then cur :: csv_read FieldStart EmptyString s'
          else csv_read Unquoted (cur ++ String c EmptyString) s'
      end
  end.

Definition csv_fields (line : string) : list string := csv_read FieldStart EmptyString line.

(** What the reader does once a field is complete: [rest] is the end of
    the line or starts with the separator. *)
Definition after_field (rest : string) : list string :=
  match rest with
  | EmptyString => []
  | String _ more => csv_read FieldStart EmptyString more
  end.

Definition at_boundary (rest : string) : Prop :=
  rest = EmptyString ∨ ∃ more, rest = String semicolon more.

(** *** [main] and what only it calls *)

Definition EXCEL_FILENAME : string := "Ãœbungen_Reihenfolge_Modul5_6_v5.xlsx".
Definition OUTPUT_EXCEL : string := OUTPUT_DIR ++ "/" ++ "ergebnisse.xlsx".
Definition OUTPUT_CSV : string := OUTPUT_DIR ++ "/" ++ "ergebnisse.csv".

(** [s.startswith(p)] and [s.endswith(p)] *)
Definition starts_with (p s : string) : bool := String.prefix p s.

Definition ends_with (p s : string) : bool :=
  (String.length p <=? String.length s)%nat
  && String.eqb (String.substring (String.length s - String.length p) (String.length p) s) p.

(** [os.path.join(a, b)] for a relative [b]. *)
Definition os_path_join (a b : string) : string :=
  if String.eqb a "" || ends_with "/" a then a ++ b else a ++ "/" ++ b.
Arguments os_path_join : simpl never.

(** [s.replace(pat, "")]: the occurrences of [pat] are removed from left to
    right; [skip] counts the characters of an occurrence still to drop. *)
Fixpoint remove_go (pat : string) (skip : nat) (s : string) : string :=
  match s with
  | EmptyString => EmptyString
  | String c s' =>
      match skip with
      | S k => remove_go pat k s'
      | O =>
          if nonempty pat && String.prefix pat s
          then remove_go pat (String.length pat - 1) s'
          else String c (remove_go pat 0 s')
      end
  end.

Definition remove_all (pat s : string) : string := remove_go pat 0 s.
Arguments remove_all : simpl never.

(** The first element of a list that passes a test, [""] when none does:
    [for x in xs: if test(x): return x] followed by [return ""]. *)
Fixpoint first_such (test : string → bool) (xs : list string) : string :=
  match xs with
  | [] => ""
  | x :: rest => if test x then x else first_such test rest
  end.

(** The test of the fallback loop of [find_excel_file]. *)
Definition looks_like_worklist (f : string) : bool :=
  Str.contains "v5" f && ends_with ".xlsx" f && negb (starts_with "~" f).

(** [find_excel_file()], from the home directory, [os.listdir(".")] and the
    file system. *)
Definition find_excel_file (home : string) (cwd_listing : list string)
    (fs : gmap string fcontent) : string :=
  let candidates :=
    [os_path_join "." EXCEL_FILENAME;
     os_path_join (os_path_join home "Downloads") EXCEL_FILENAME] in
  match first_such (path_exists fs) candidates with
  | EmptyString => first_such looks_like_worklist cwd_listing
  | path => path
  end.

(** The loop of [main] under [--skip-download], over [os.listdir(AUDIO_DIR)]:
    [if f.endswith(".mp3"): vid = f.replace(".mp3", "");
     if vid not in downloaded: downloaded[vid] = {"status": "ok", "path": ...}] *)
Fixpoint scan_audio (listing : list string) (st : state) : state :=
  match listing with
  | [] => st
  | f :: rest =>
      scan_audio rest
        (if ends_with ".mp3" f then
           let vid := remove_all ".mp3" f in
           match st_map st !! vid with
           | Some _ => st
           | None => set_downloaded vid (ok_download (os_path_join AUDIO_DIR f)) st
           end
         else st)
  end.

(** The command line and what [main] asks of the machine besides the files:
    the home directory, two directory listings, the sheet a workbook holds
    (or the exception raised on opening it), the two collaborators and the
    class [\d] of the interpreter. The directories [main] creates are not
    files and leave [files] as it is. *)
Record args := {
  skip_download : bool;
  skip_transcribe : bool;
  model : string;
  excel : string
}.

Record host := {
  home : string;
  cwd_listing : list string;
  audio_listing : list string;
  workbook : string → exn + list sheet_row;
  ydl : fetcher;
  whisper : string → transcriber;
  decimal : N → bool
}.

(** How [main] ends: [sys.exit(1)], an uncaught exception, or normally with
    the report written. *)
Inductive ending :=
| Exit1 (w : world)
| Crashed (e : exn) (w : world)
| Finished (report : list report_row) (csv : string) (st : state).

(** What [export_results] leaves on disk. *)
Definition write_results (w : world) : world :=
  {| files := <[OUTPUT_CSV := Blob]> (<[OUTPUT_EXCEL := Blob]> (files w));
     trace := trace w |}.

(** The fetch stage of [main]: the download phase, or under
    [--skip-download] the scan of the audio directory. *)
Definition fetch_stage (a : args) (h : host) (progress : progress) (entries : list entry)
    (w : world) : outcome :=
  if skip_download a
  then Normal (scan_audio (audio_listing h) (start_of (pg_downloaded progress) progress w))
  else download_audio (ydl h) entries progress w.

(** The transcription stage of [main]: the transcription phase, or under
    [--skip-transcribe] only [transcribed = progress.get("transcribed", {})]. *)
Definition transcribe_stage (a : args) (h : host) (entries : list entry) (fetched : state)
  : outcome :=
  if skip_transcribe a
  then Normal (start_of (pg_transcribed (st_progress fetched)) (st_progress fetched)
                 (st_world fetched))
  else transcribe_audio (whisper h (model a)) entries (st_map fetched)
         (st_progress fetched) (st_world fetched).

Definition main (a : args) (h : host) (w : world) : ending :=
  let excel_path :=
    if nonempty (excel a) then excel a
    else find_excel_file (home h) (cwd_listing h) (files w) in
  if negb (nonempty excel_path) || negb (path_exists (files w) excel_path) then Exit1 w
  else
    match load_progress PROGRESS_FILE w with
    | inl e => Crashed e w
    | inr progress =>
        match workbook h excel_path with
        | inl e => Crashed e w
        | inr ws =>
            let entries := read_excel (decimal h) ws in
            match fetch_stage a h progress entries w with
            | Raised e st => Crashed e (st_world st)
            | Normal fetched =>
                let downloaded := st_map fetched in
                match transcribe_stage a h entries fetched with
                | Raised e st => Crashed e (st_world st)
                | Normal finished =>
                    match export_rows entries (st_map finished) downloaded with
                    | inl e => Crashed e (st_world finished)
                    | inr report =>
                        Finished report
                          (Str.join (String newline EmptyString) (csv_lines report))
                          (with_world (write_results (st_world finished)) finished)
                    end
                end
            end
        end
    end.

(** *** What a run appended to the trace *)

(** The ids of the collaborator calls among some events, in order. *)
Definition fetch_calls (evs : list event) : list string :=
  omap (λ ev, match ev with EvFetch vid _ => Some vid | _ => None end) evs.

Definition transcribe_calls (evs : list event) : list string :=
  omap (λ ev, match ev with EvTranscribe vid _ => Some vid | _ => None end) evs.

Definition saves (evs : list event) : list progress :=
  omap (λ ev, match ev with EvSave _ p => Some p | _ => None end) evs.

(** An item has a state, ok or error, in a mapping. *)
Definition settled (m : gmap string (gmap string jval)) (vid : string) : Prop :=
  has_status m vid "ok" = true ∨ has_status m vid "error" = true.

(** All bytes of a string pass a test. *)
Fixpoint all_chars (test : ascii → bool) (s : string) : bool :=
  match s with
  | EmptyString => true
  | String c s' => test c && all_chars test s'
  end.

(** One character: a first byte followed by continuation bytes only. *)
Definition one_char (ch : string) : Prop :=
  match ch with
  | EmptyString => False
  | String _ t => all_chars Str.is_continuation t = true
  end.

(** A list of characters as [Str.chars] gives them: only the first may
    start with a continuation byte (in a string that is not well-formed
    UTF-8). *)
Definition char_list (l : list string) : Prop :=
  Forall one_char l ∧ Forall (λ ch, Str.starts_inside ch = false) (tail l).

(** All characters of a list pass a test on code points. *)
Definition all_of (test : N → bool) (l : list string) : Prop :=
  Forall (λ ch, Str.char_is test ch = true) l.

(** The list is empty or starts with a character that fails the test. *)
Definition none_ahead (test : N → bool) (l : list string) : Prop :=
  ∀ ch, head l = Some ch → Str.char_is test ch = false.

(** The list is empty or ends with a character that fails the test. *)
Definition none_at_end (test : N → bool) (l : list string) : Prop :=
  ∀ ch, last l = Some ch → Str.char_is test ch = false.

(** The value of a finite float [±m * 2^e] cut towards zero is [n]. *)
Definition cut_to (s : bool) (m : positive) (e : Z) (n : Z) : Prop :=
  (if s then (n ≤ 0)%Z else (0 ≤ n)%Z)
  ∧ ((0 ≤ e)%Z → Z.abs n = (Z.pos m * 2 ^ e)%Z)
  ∧ ((e < 0)%Z → (Z.abs n * 2 ^ (- e) ≤ Z.pos m < (Z.abs n + 1) * 2 ^ (- e))%Z).

(** The two decimal digits of a number below 100. *)
Definition two_digits (n : Z) : string :=
  String (ascii_of_nat (48 + Z.to_nat (n / 10)))
    (String (ascii_of_nat (48 + Z.to_nat (n mod 10))) EmptyString).


(** The URL slot of a sheet row an entry was made from. *)
Definition slot_of (sr : sheet_row) (typ : string) (video : cell) : Prop :=
  (typ = "kurz" ∧ video = c_video_kurz sr) ∨ (typ = "lang" ∧ video = c_video_lang sr).





(** The world [main] ends in. *)
Definition ending_world (e : ending) : world :=
  match e with
  | Exit1 w => w
  | Crashed _ w => w
  | Finished _ _ st => st_world st
  end.

(** A machine for the sample runs of [main]: the worklist of [Sample] in
    the workbook, item 100 already in the audio directory. *)
Module SampleMain.

Definition machine : host :=
  {| home := "/home/u"; cwd_listing := []; audio_listing := ["100.mp3"; "notes.txt"];
     workbook := λ _, inr Sample.worklist;
     ydl := Sample.ydl_poisoned; whisper := λ _, Sample.model_hallo;
     decimal := Sample.decimal |}.

Definition disk : world := {| files := {["plan.xlsx" := Blob]}; trace := [] |}.

Definition full_run : args :=
  {| skip_download := false; skip_transcribe := false; model := "small";
     excel := "plan.xlsx" |}.

Definition report_only : args :=
  {| skip_download := true; skip_transcribe := true; model := "small";
     excel := "plan.xlsx" |}.

End SampleMain.

(** ** Characters and lists of characters *)

Section Lists.

Context {A : Type} (test : A → bool).

Implicit Types (l : list A) (x : A).

Lemma take_drop_while l :
  Str.take_while test l ++ Str.drop_while test l = l.
Proof. induction l as [|x l IH]; [done|]. simpl. destruct (test x); [simpl; by rewrite IH|done]. Qed.

Lemma take_while_all l :
  Forall (λ x, test x = true) (Str.take_while test l).
Proof. induction l as [|x l IH]; simpl; [constructor|]. destruct (test x) eqn:Hx; by constructor. Qed.

Lemma drop_while_head l x :
  head (Str.drop_while test l) = Some x → test x = false.
Proof. induction l as [|y l IH]; [done|]. simpl. destruct (test y) eqn:Hy; [done|]. by intros [= <-]. Qed.

Lemma drop_while_id l :
  (∀ x, head l = Some x → test x = false) → Str.drop_while test l = l.
Proof. destruct l as [|x l]; [done|]. simpl. intros H. by rewrite H. Qed.

Lemma drop_while_end_prefix l :
  ∃ k, l = Str.drop_while_end test l ++ k ∧ Forall (λ x, test x = true) k.
Proof.
  induction l as [|x l (k & IH & Hk)]; [by exists []|]. simpl.
  destruct (Str.drop_while_end test l) as [|y kept] eqn:Hkept.
  - destruct (test x) eqn:Hx.
    + exists (x :: l). split; [done|]. simpl in IH. subst k. by constructor.
    + exists k. split; [|done]. simpl in *. by rewrite IH at 1.
  - exists k. split; [|done]. by rewrite IH at 1.
Qed.

Lemma drop_while_end_last l x :
  last (Str.drop_while_end test l) = Some x → test x = false.
Proof.
  induction l as [|y l IH]; [done|]. simpl.
  destruct (Str.drop_while_end test l) as [|z kept] eqn:Hkept.
  - destruct (test y) eqn:Hy; [done|]. by intros [= <-].
  - rewrite last_cons. destruct (last (z :: kept)) as [w|] eqn:Hl.
    + intros [= <-]. by apply IH.
    + by apply last_None in Hl.
Qed.

Lemma drop_while_end_id l :
  (∀ x, last l = Some x → test x = false) → Str.drop_while_end test l = l.
Proof.
  induction l as [|y l IH]; [done|]. intros H. simpl.
  destruct l as [|z l].
  - simpl. by rewrite H.
  - rewrite IH; [done|]. intros x Hx. apply H. rewrite last_cons. by rewrite Hx.
Qed.

Lemma drop_while_end_head l x :
  head (Str.drop_while_end test l) = Some x → head l = Some x.
Proof.
  destruct l as [|y l]; [done|]. simpl.
  destruct (Str.drop_while_end test l); [by destruct (test y)|done].
Qed.

End Lists.

Section Characters.

Implicit Types (s t : string) (c d : ascii) (ch : string) (l k : list string).

Lemma str_app_cons c s t : String c s +:+ t = String c (s +:+ t).
Proof. reflexivity. Qed.

Lemma str_app_nil_r s : s +:+ "" = s.
Proof. induction s as [|c s IH]; [done|]. by rewrite str_app_cons, IH. Qed.

Lemma str_app_assoc s1 s2 s3 : (s1 +:+ s2) +:+ s3 = s1 +:+ s2 +:+ s3.
Proof. induction s1 as [|c s1 IH]; [done|]. by rewrite !str_app_cons, IH. Qed.

Lemma concat_app l k : Str.concat (l ++ k) = Str.concat l +:+ Str.concat k.
Proof.
  induction l as [|ch l IH]; [done|]. simpl. by rewrite IH, str_app_assoc.
Qed.

Lemma chars_cons c s :
  Str.chars (String c s)
  = match Str.chars s with
    | ch :: rest =>
        if Str.starts_inside ch then String c ch :: rest
        else String c EmptyString :: ch :: rest
    | [] => [String c EmptyString]
    end.
Proof. reflexivity. Qed.

Lemma concat_chars s : Str.concat (Str.chars s) = s.
Proof.
  induction s as [|c s IH]; [done|]. rewrite chars_cons.
  destruct (Str.chars s) as [|ch rest]; simpl in *.
  - by rewrite <- IH.
  - destruct (Str.starts_inside ch); simpl; by rewrite <- IH.
Qed.

Lemma chars_head s ch rest :
  Str.chars s = ch :: rest → ∃ c t s', s = String c s' ∧ ch = String c t.
Proof.
  destruct s as [|c s]; [done|]. rewrite chars_cons.
  destruct (Str.chars s) as [|ch' rest']; [intros [= <- <-]; by eexists _, _, _|].
  destruct (Str.starts_inside ch'); intros [= <- <-]; by eexists _, _, _.
Qed.

Lemma chars_head_starts s ch rest :
  Str.chars s = ch :: rest → Str.starts_inside ch = Str.starts_inside s.
Proof. intros H. by destruct (chars_head _ _ _ H) as (c & t & s' & -> & ->). Qed.

Lemma chars_nil s : Str.chars s = [] → s = "".
Proof. intros H. by rewrite <- (concat_chars s), H. Qed.

(** The characters of a character followed by a string that starts at a
    character boundary. *)
Lemma chars_char_app c t s :
  all_chars Str.is_continuation t = true →
  Str.starts_inside s = false →
  Str.chars (String c (t +:+ s)) = String c t :: Str.chars s.
Proof.
  revert c. induction t as [|d t IH]; intros c Ht Hs.
  - change ("" +:+ s) with s. rewrite chars_cons.
    destruct (Str.chars s) as [|ch rest] eqn:Hch; [done|].
    by rewrite (chars_head_starts _ _ _ Hch), Hs.
  - simpl in Ht. apply andb_true_iff in Ht as [Hd Ht].
    rewrite str_app_cons, chars_cons, (IH d Ht Hs). simpl. by rewrite Hd.
Qed.

Lemma char_list_chars s : char_list (Str.chars s).
Proof.
  induction s as [|c s [IH1 IH2]]; [by split|]. rewrite chars_cons.
  destruct (Str.chars s) as [|ch rest] eqn:Hch.
  - split; [by repeat constructor | constructor].
  - destruct (Str.starts_inside ch) eqn:Hin.
    + apply Forall_cons in IH1 as [Hch1 Hrest]. split; [|done].
      constructor; [|done]. destruct ch as [|d t]; [done|]. simpl in *. by rewrite Hin, Hch1.
    + split; [by constructor|]. simpl. by constructor.
Qed.

Lemma char_list_cons_inv ch l : char_list (ch :: l) → one_char ch ∧ char_list l
  ∧ Str.starts_inside (Str.concat l) = false.
Proof.
  intros [H1 H2]. apply Forall_cons in H1 as [Hch Hl]. simpl in H2.
  split; [done|]. split.
  - split; [done|]. destruct l; [constructor|]. by apply Forall_cons in H2 as [_ ?].
  - destruct l as [|ch' l]; [done|]. apply Forall_cons in H2 as [Hs _].
    apply Forall_cons in Hl as [Hch' _]. destruct ch' as [|d t]; [done|]. exact Hs.
Qed.

Lemma chars_concat l : char_list l → Str.chars (Str.concat l) = l.
Proof.
  induction l as [|ch l IH]; [done|]. intros Hl.
  apply char_list_cons_inv in Hl as (Hch & Hl & Hs).
  destruct ch as [|c t]; [done|]. simpl in Hch. cbn [Str.concat]. rewrite str_app_cons.
  rewrite chars_char_app by done. by rewrite IH.
Qed.

Lemma char_list_suffix l k : char_list (k ++ l) → char_list l.
Proof.
  induction k as [|ch k IH]; [done|]. intros H. apply IH.
  by apply char_list_cons_inv in H as (_ & ? & _).
Qed.

Lemma char_list_prefix l k : char_list (l ++ k) → char_list l.
Proof.
  intros [H1 H2]. apply Forall_app in H1 as [H1 _]. split; [done|].
  destruct l as [|ch l]; [constructor|]. simpl in *. by apply Forall_app in H2 as [? _].
Qed.

Lemma chars_lstrip s :
  Str.chars (Str.lstrip s) = Str.drop_while (Str.char_is Str.is_space) (Str.chars s).
Proof.
  unfold Str.lstrip. apply chars_concat.
  apply (char_list_suffix _ (Str.take_while (Str.char_is Str.is_space) (Str.chars s))).
  rewrite take_drop_while. apply char_list_chars.
Qed.

Lemma chars_rstrip s :
  Str.chars (Str.rstrip s) = Str.drop_while_end (Str.char_is Str.is_space) (Str.chars s).
Proof.
  unfold Str.rstrip. apply chars_concat.
  destruct (drop_while_end_prefix (Str.char_is Str.is_space) (Str.chars s)) as (k & Hk & _).
  apply (char_list_prefix _ k). rewrite <- Hk. apply char_list_chars.
Qed.

Lemma chars_strip s :
  Str.chars (Str.strip s)
  = Str.drop_while_end (Str.char_is Str.is_space)
      (Str.drop_while (Str.char_is Str.is_space) (Str.chars s)).
Proof. unfold Str.strip. by rewrite chars_rstrip, chars_lstrip. Qed.

Lemma strip_head s ch :
  head (Str.chars (Str.strip s)) = Some ch → Str.char_is Str.is_space ch = false.
Proof.
  rewrite chars_strip. intros H. apply drop_while_end_head in H.
  by apply drop_while_head in H.
Qed.

Lemma strip_last s ch :
  last (Str.chars (Str.strip s)) = Some ch → Str.char_is Str.is_space ch = false.
Proof. rewrite chars_strip. apply drop_while_end_last. Qed.

Lemma strip_idem s : Str.strip (Str.strip s) = Str.strip s.
Proof.
  unfold Str.strip at 1. unfold Str.rstrip. rewrite chars_lstrip.
  rewrite drop_while_id by apply strip_head.
  rewrite drop_while_end_id by apply strip_last.
  apply concat_chars.
Qed.




End Characters.

(** ** Checkpoint store *)

(** C7. Loading never fails when there is no checkpoint file: for every
    path at which no file exists, [load_progress] returns the mapping with
    an empty "downloaded" and an empty "transcribed" part. *)
Theorem load_progress_without_file (progress_file : string) (w : world) :
  files w !! progress_file = None →
  load_progress progress_file w = inr {| pg_downloaded := Some ∅; pg_transcribed := Some ∅ |}.
Proof.
  intros Hnone. unfold load_progress, path_exists.
  rewrite Hnone. rewrite bool_decide_eq_false_2; [reflexivity|].
  intros [x Hx]. discriminate.
Qed.

Lemma load_progress_without_file_witness :
  load_progress PROGRESS_FILE Sample.no_files
  = inr {| pg_downloaded := Some ∅; pg_transcribed := Some ∅ |}.
Proof. apply (load_progress_without_file PROGRESS_FILE Sample.no_files). reflexivity. Defined.

(** ** Result aggregator *)

Lemma status_ok_not_error (r : gmap string jval) :
  status_is r "ok" = true → status_is r "error" = false.
Proof.
  unfold status_is. destruct (r !! "status") as [[t|]|]; try done.
  intros H. apply String.eqb_eq in H. by subst.
Qed.

(** C4. The status of a result row is the one the ordered decision list
    assigns, first match wins: no ItemKey gives no_identifier; else a
    transform state ok gives ok (with its text and duration); else a fetch
    state error gives fetch_failed (with the fetch message); else a
    transform state error gives transform_failed (with its message);
    otherwise not_processed. In particular fetch error with transform
    unset is reported fetch_failed, never not_processed. *)
Theorem row_status_decision_list :
  (∀ (e : entry) (transcribed downloaded : gmap string (gmap string jval)),
     let vid := default "" (vimeo_id e) in
     row_status e transcribed downloaded
     = render (aggregate (item_key e) (state_of downloaded vid) (state_of transcribed vid)))
  ∧
  (∀ (e : entry) (transcribed downloaded : gmap string (gmap string jval)) vid f,
     item_key e = Some vid →
     state_of downloaded vid = Error f →
     state_of transcribed vid = Unset →
     row_status e transcribed downloaded
     = inr {| v_status := "download_fehlgeschlagen"; v_text := error_text f;
              v_audio_dur := JStr "" |}).
Proof.
  assert (Hmain : ∀ e transcribed downloaded,
     row_status e transcribed downloaded
     = render (aggregate (item_key e) (state_of downloaded (default "" (vimeo_id e)))
                 (state_of transcribed (default "" (vimeo_id e))))).
  { intros e transcribed downloaded.
    unfold row_status, item_key.
    destruct (vimeo_id e) as [vid|]; simpl; [|reflexivity].
    destruct (nonempty vid); simpl; [|reflexivity].
    unfold has_status, state_of.
    destruct (transcribed !! vid) as [t|]; simpl.
    - destruct (status_is t "ok") eqn:Htok; simpl; [reflexivity|].
      destruct (downloaded !! vid) as [f|]; simpl.
      + destruct (status_is f "ok") eqn:Hfok.
        * rewrite (status_ok_not_error f Hfok); simpl.
          destruct (status_is t "error"); reflexivity.
        * destruct (status_is f "error"); simpl; [by destruct (status_is t "error")|].
          destruct (status_is t "error"); reflexivity.
      + destruct (status_is t "error"); reflexivity.
    - destruct (downloaded !! vid) as [f|]; simpl; [|reflexivity].
      destruct (status_is f "ok") eqn:Hfok.
      + by rewrite (status_ok_not_error f Hfok).
      + by destruct (status_is f "error"). }
  split; [exact Hmain|].
  intros e transcribed downloaded vid f Hkey Hf Ht.
  rewrite Hmain.
  assert (default "" (vimeo_id e) = vid) as ->.
  { unfold item_key in Hkey. destruct (vimeo_id e) as [v|]; [|done].
    destruct (nonempty v); by inversion Hkey. }
  by rewrite Hkey, Hf, Ht.
Qed.

Lemma row_status_decision_list_witness :
  row_status Sample.e200 ∅ Sample.fetch_timeout
  = inr {| v_status := "download_fehlgeschlagen"; v_text := JStr "[Fehler: timeout]";
           v_audio_dur := JStr "" |}.
Proof.
  apply (proj2 row_status_decision_list Sample.e200 ∅ Sample.fetch_timeout "200"
           (error_record "timeout")); reflexivity.
Defined.

(** ** One turn of a phase loop *)

Section Turn.

Implicit Types (st : state) (r : gmap string jval) (vid : string).

Lemma has_status_insert (m : gmap string (gmap string jval)) vid r s :
  has_status (<[vid := r]> m) vid s = status_is r s.
Proof. unfold has_status. by rewrite lookup_insert_eq. Qed.

Lemma download_attempt_eq (ydl : fetcher) vid url st :
  download_attempt ydl vid url st
  = set_downloaded vid
      (fetch_record (ydl (outtmpl_of vid) url (files (st_world st))).1
                    (ydl (outtmpl_of vid) url (files (st_world st))).2 vid)
      (with_world (add_event (EvFetch vid url)
                     (ydl (outtmpl_of vid) url (files (st_world st))).2 (st_world st)) st).
Proof.
  unfold download_attempt, fetch_record.
  destruct (ydl (outtmpl_of vid) url (files (st_world st))) as [[code|msg] fs]; simpl;
    [destruct (path_exists fs (audio_path_of vid))|]; reflexivity.
Qed.

Lemma download_item_skipped (ydl : fetcher) vid url st :
  download_skip (st_map st) (files (st_world st)) vid = inr true →
  download_item ydl vid url st = Normal st.
Proof. unfold download_item. by intros ->. Qed.

Lemma download_item_attempted (ydl : fetcher) vid url st :
  download_skip (st_map st) (files (st_world st)) vid = inr false →
  download_item ydl vid url st
  = Normal (commit_downloaded (download_attempt ydl vid url st)).
Proof. unfold download_item. by intros ->. Qed.

(** The turn of an attempted download: what it leaves behind. *)
Lemma download_turn (ydl : fetcher) vid url st :
  download_skip (st_map st) (files (st_world st)) vid = inr false →
  ∃ st', download_item ydl vid url st = Normal st'
    ∧ st_map st'
      = <[vid := fetch_record (ydl (outtmpl_of vid) url (files (st_world st))).1
                              (ydl (outtmpl_of vid) url (files (st_world st))).2 vid]>
          (st_map st)
    ∧ st_progress st'
      = {| pg_downloaded := Some (st_map st');
           pg_transcribed := pg_transcribed (st_progress st) |}
    ∧ appended st st' [EvFetch vid url; EvSave PROGRESS_FILE (st_progress st')]
    ∧ persisted st'.
Proof.
  intros Hskip. eexists. split; [by apply download_item_attempted|].
  rewrite download_attempt_eq. unfold appended, persisted, set_downloaded; simpl.
  repeat split.
  - by destruct (pg_downloaded (st_progress st)).
  - destruct (pg_downloaded (st_progress st)); simpl; by rewrite <- app_assoc.
  - by rewrite lookup_insert_eq.
Qed.

Lemma transcribe_attempt_eq (model : transcriber) vid p st :
  transcribe_attempt model vid p st
  = set_transcribed vid (transcript_record (model p (files (st_world st))).1)
      {| st_map := st_map st; st_progress := st_progress st;
         st_world := add_event (EvTranscribe vid p)
                       (model p (files (st_world st))).2 (st_world st);
         st_audio_total := audio_of (model p (files (st_world st))).1 (st_audio_total st) |}.
Proof.
  unfold transcribe_attempt, transcript_record, audio_of.
  destruct (model p (files (st_world st))) as [[segs d c|msg] fs]; simpl; [|done].
  by destruct (format_duration d).
Qed.

Lemma transcribe_item_skipped (model : transcriber) downloaded vid st :
  transcribe_skip (st_map st) vid = true →
  transcribe_item model downloaded vid st = Normal st.
Proof. unfold transcribe_item. by intros ->. Qed.



End Turn.

(** ** Fetch: the success signal *)

(** C6. A fetch attempt records the item ok, with the expected artifact
    path, exactly when the collaborator returned without raising and the
    artifact file exists at the expected path after the call; when the call
    returns and the file is absent the item is recorded as error, whatever
    value the collaborator returned. *)
Theorem fetch_ok_iff_artifact_exists (ydl : fetcher) (vimeo_id url : string) (st : state) :
  download_skip (st_map st) (files (st_world st)) vimeo_id = inr false →
  let res := (ydl (outtmpl_of vimeo_id) url (files (st_world st))).1 in
  let fs := (ydl (outtmpl_of vimeo_id) url (files (st_world st))).2 in
  ∃ st', download_item ydl vimeo_id url st = Normal st'
    ∧ (has_status (st_map st') vimeo_id "ok" = true
       ↔ (∃ code, res = FReturn code) ∧ path_exists fs (audio_path_of vimeo_id) = true)
    ∧ (has_status (st_map st') vimeo_id "ok" = true
       → st_map st' !! vimeo_id = Some (ok_download (audio_path_of vimeo_id)))
    ∧ (has_status (st_map st') vimeo_id "ok" = false
       → has_status (st_map st') vimeo_id "error" = true)
    ∧ (∀ code, res = FReturn code → path_exists fs (audio_path_of vimeo_id) = false
       → st_map st' !! vimeo_id = Some (error_record "Datei nicht gefunden nach Download")).
Proof.
  intros Hskip res fs.
  destruct (download_turn ydl vimeo_id url st Hskip) as (st' & Hitem & Hmap & _).
  exists st'. split; [exact Hitem|].
  rewrite Hmap, !has_status_insert, lookup_insert_eq. fold res fs.
  unfold fetch_record.
  destruct res as [code|msg]; [destruct (path_exists fs (audio_path_of vimeo_id)) eqn:Hex|].
  - repeat split; eauto; done.
  - repeat split; try done. intros [_ ?]; done.
  - repeat split; try done. intros [[? ?] _]; done.
Qed.

Lemma fetch_ok_iff_artifact_exists_witness :
  has_status
    (st_map (final (download_item Sample.ydl_writes "100" "https://vimeo.com/100"
                      (Sample.state0 ∅ empty_progress Sample.no_files))))
    "100" "ok" = true.
Proof.
  destruct (fetch_ok_iff_artifact_exists Sample.ydl_writes "100" "https://vimeo.com/100"
              (Sample.state0 ∅ empty_progress Sample.no_files))
    as (st' & Hitem & Hiff & _); [vm_compute; reflexivity|].
  rewrite Hitem. apply Hiff. split; [by exists 0%Z | vm_compute; reflexivity].
Defined.

(** ** Persistence after each item *)





(** The one turn that changes the mapping without writing it: an item of
    the transcription loop whose audio file is gone gets its error stored
    in memory and the loop moves on ([continue]) before the write. After a
    run over that single item the returned mapping holds the error and the
    progress file does not. *)
Lemma missing_audio_error_is_not_saved :
  let st := final (transcribe_audio Sample.model_hallo [Sample.e100] Sample.one_fetched
                     Sample.fetched_100 Sample.disk_fetched_no_audio) in
  st_map st !! "100" = Some (error_record "Audio-Datei nicht gefunden")
  ∧ trace (st_world st) = []
  ∧ files (st_world st) !! PROGRESS_FILE = Some (Json Sample.fetched_100)
  ∧ ¬ persisted st.
Proof.
  vm_compute. repeat split. intros H. discriminate H.
Qed.

(** ** The skip decision *)

Lemma download_skip_spec (downloaded : gmap string (gmap string jval))
    (fs : gmap string fcontent) (vid : string) :
  download_skip downloaded fs vid = inr true ↔ spec_skip fs (downloaded !! vid) = true.
Proof.
  unfold download_skip, spec_skip, recorded_artifact_exists, os_path_exists.
  destruct (downloaded !! vid) as [r|]; [|done].
  destruct (status_is r "ok"); [|done]. simpl.
  destruct (r !! "path") as [[p|t]|]; try done.
  split; [by intros [= ->] | by intros ->].
Qed.




(** ** The phase loops *)

Section Loops.

Implicit Types (st : state) (vid : string) (downloaded : gmap string (gmap string jval)).

Lemma download_item_cases (ydl : fetcher) vid url st :
  final (download_item ydl vid url st) = st
  ∨ final (download_item ydl vid url st)
    = commit_downloaded (download_attempt ydl vid url st).
Proof.
  unfold download_item.
  destruct (download_skip (st_map st) (files (st_world st)) vid) as [e|[|]]; auto.
Qed.

Lemma transcribe_item_cases (model : transcriber) downloaded vid st :
  final (transcribe_item model downloaded vid st) = st
  ∨ final (transcribe_item model downloaded vid st)
    = set_transcribed vid (error_record "Audio-Datei nicht gefunden") st
  ∨ ∃ p, final (transcribe_item model downloaded vid st)
         = commit_transcribed (transcribe_attempt model vid p st).
Proof.
  unfold transcribe_item.
  destruct (transcribe_skip (st_map st) vid); [by left|].
  destruct (downloaded !! vid) as [r|]; [|by left].
  destruct (r !! "path") as [a|]; [|by left].
  destruct (os_path_exists (files (st_world st)) a) as [e|[|]]; eauto.
Qed.

(** Induction over the turns of the download loop: what holds at the
    start and is kept by every turn holds in the state the loop ends in. *)
Lemma download_loop_ind (P : state → Prop) (ydl : fetcher) items st :
  P st →
  (∀ vid url s, (vid, url) ∈ items → P s → P (final (download_item ydl vid url s))) →
  P (final (download_loop ydl items st)).
Proof.
  revert st. induction items as [|[vid url] items IH]; intros st Hst Hstep; [done|].
  simpl.
  assert (Hhead : P (final (download_item ydl vid url st))).
  { apply Hstep; [apply list_elem_of_here | done]. }
  destruct (download_item ydl vid url st) as [st'|e st']; simpl in *; [|done].
  apply IH; [done|]. intros vid' url' s Hin. apply Hstep. by apply list_elem_of_further.
Qed.

Lemma transcribe_loop_ind (P : state → Prop) (model : transcriber) downloaded ids st :
  P st →
  (∀ vid s, vid ∈ ids → P s → P (final (transcribe_item model downloaded vid s))) →
  P (final (transcribe_loop model downloaded ids st)).
Proof.
  revert st. induction ids as [|vid ids IH]; intros st Hst Hstep; [done|].
  simpl.
  assert (Hhead : P (final (transcribe_item model downloaded vid st))).
  { apply Hstep; [apply list_elem_of_here | done]. }
  destruct (transcribe_item model downloaded vid st) as [st'|e st']; simpl in *; [|done].
  apply IH; [done|]. intros vid' s Hin. apply Hstep. by apply list_elem_of_further.
Qed.

Lemma download_item_keeps_transcribed (ydl : fetcher) vid url st :
  pg_transcribed (st_progress (final (download_item ydl vid url st)))
  = pg_transcribed (st_progress st).
Proof.
  destruct (download_item_cases ydl vid url st) as [-> | ->]; [done|].
  rewrite download_attempt_eq. unfold commit_downloaded, set_downloaded; simpl.
  by destruct (pg_downloaded (st_progress st)).
Qed.

Lemma transcribe_item_keeps_downloaded (model : transcriber) downloaded vid st :
  pg_downloaded (st_progress (final (transcribe_item model downloaded vid st)))
  = pg_downloaded (st_progress st).
Proof.
  destruct (transcribe_item_cases model downloaded vid st) as [-> | [-> | [p ->]]].
  - done.
  - unfold set_transcribed; simpl. by destruct (pg_transcribed (st_progress st)).
  - rewrite transcribe_attempt_eq. unfold commit_transcribed, set_transcribed; simpl.
    by destruct (pg_transcribed (st_progress st)).
Qed.

(** The summary after the transcription loop changes no state; it turns
    a normal end into an exception when the counter is not finite. *)
Lemma final_print_summary (o : outcome) : final (print_summary o) = final o.
Proof.
  destruct o as [st|e st]; simpl; [|done]. by destruct (format_duration (st_audio_total st)).
Qed.

Lemma print_summary_Normal (o : outcome) st : print_summary o = Normal st → o = Normal st.
Proof.
  destruct o as [st'|e st']; simpl; [|done].
  by destruct (format_duration (st_audio_total st')).
Qed.



Lemma transcribe_audio_final (model : transcriber) (entries : list entry) downloaded
    (progress : progress) (w : world) :
  final (transcribe_audio model entries downloaded progress w)
  = final (transcribe_loop model downloaded (transform_order entries downloaded)
             (start_of (pg_transcribed progress) progress w)).
Proof. unfold transcribe_audio. apply final_print_summary. Qed.

Lemma transcribe_audio_Normal (model : transcriber) (entries : list entry) downloaded
    (progress : progress) (w : world) st :
  transcribe_audio model entries downloaded progress w = Normal st →
  transcribe_loop model downloaded (transform_order entries downloaded)
    (start_of (pg_transcribed progress) progress w) = Normal st.
Proof. unfold transcribe_audio. apply print_summary_Normal. Qed.

Lemma elem_of_sorted (s : gset string) (x : string) : x ∈ sorted s ↔ x ∈ s.
Proof. unfold sorted. by rewrite merge_sort_Permutation, elem_of_elements. Qed.

Lemma NoDup_sorted (s : gset string) : NoDup (sorted s).
Proof. unfold sorted. rewrite merge_sort_Permutation. apply NoDup_elements. Qed.

Lemma elem_of_collect_ids (entries : list entry) downloaded (acc : gset string) x :
  x ∈ collect_ids_to_transcribe entries downloaded acc
  ↔ x ∈ acc ∨ (x ∈ item_keys entries ∧ has_status downloaded x "ok" = true).
Proof.
  revert acc. induction entries as [|e entries IH]; intros acc; simpl.
  - unfold item_keys; simpl. rewrite elem_of_nil. naive_solver.
  - rewrite IH. unfold item_keys, item_key; simpl.
    destruct (vimeo_id e) as [v|]; simpl; [|naive_solver].
    destruct (nonempty v); simpl.
    + destruct (has_status downloaded v "ok") eqn:Hs.
      * rewrite elem_of_union, elem_of_singleton, elem_of_cons. naive_solver.
      * rewrite elem_of_cons. split; [tauto|].
        intros [?|[[->|?] ?]]; [tauto | congruence | tauto].
    + tauto.
Qed.

Lemma elem_of_transform_order (entries : list entry) downloaded x :
  x ∈ transform_order entries downloaded
  ↔ x ∈ item_keys entries ∧ has_status downloaded x "ok" = true.
Proof.
  unfold transform_order. rewrite elem_of_sorted, elem_of_collect_ids.
  rewrite elem_of_empty. naive_solver.
Qed.

End Loops.

(** ** Frame of each phase *)

(** C9. Each phase runner changes only its own sub-mapping of the
    checkpoint: [download_audio] leaves the "transcribed" mapping of
    [progress] as it found it, and [transcribe_audio] leaves the
    "downloaded" mapping as it found it, however the run ends. *)
Theorem phase_frame :
  (∀ (ydl : fetcher) (entries : list entry) (progress : progress) (w : world),
     pg_transcribed (st_progress (final (download_audio ydl entries progress w)))
     = pg_transcribed progress)
  ∧
  (∀ (model : transcriber) (entries : list entry)
     (downloaded : gmap string (gmap string jval)) (progress : progress) (w : world),
     pg_downloaded (st_progress (final (transcribe_audio model entries downloaded progress w)))
     = pg_downloaded progress).
Proof.
  split.
  - intros ydl entries progress w. unfold download_audio.
    apply (download_loop_ind
             (λ s, pg_transcribed (st_progress s) = pg_transcribed progress)); [done|].
    intros vid url s _ Hs. by rewrite download_item_keeps_transcribed.
  - intros model entries downloaded progress w. rewrite transcribe_audio_final.
    apply (transcribe_loop_ind
             (λ s, pg_downloaded (st_progress s) = pg_downloaded progress)); [done|].
    intros vid s _ Hs. by rewrite transcribe_item_keeps_downloaded.
Qed.

(** ** Transcription looks only at fetched items *)

Section Untouched.

Variables (model : transcriber) (downloaded : gmap string (gmap string jval)).
Variables (vid : string) (st0 : state).

Lemma untouched_set_transcribed vid' r s :
  vid' ≠ vid → untouched vid st0 s → untouched vid st0 (set_transcribed vid' r s).
Proof.
  intros Hne (Hmap & Htr & Hpg). unfold untouched, set_transcribed; simpl.
  rewrite lookup_insert_ne by done. repeat split; [done..|].
  destruct Hpg as [Hsome | [Hnone Hnone0]].
  - rewrite Hsome. by left.
  - rewrite Hnone. by right.
Qed.

Lemma untouched_turn vid' s :
  vid' ≠ vid → untouched vid st0 s →
  untouched vid st0 (final (transcribe_item model downloaded vid' s)).
Proof.
  intros Hne Hs.
  destruct (transcribe_item_cases model downloaded vid' s) as [-> | [-> | [p ->]]].
  - done.
  - by apply untouched_set_transcribed.
  - rewrite transcribe_attempt_eq.
    destruct Hs as (Hmap & Htr & Hpg).
    unfold untouched, commit_transcribed, set_transcribed, save_progress; simpl.
    rewrite lookup_insert_ne by done. repeat split; [done| |by left].
    intros q. rewrite !elem_of_app, !list_elem_of_singleton.
    intros [[Hin | Heq] | Heq]; [by apply Htr | congruence | by destruct (pg_transcribed _)].
Qed.

Lemma untouched_loop ids :
  vid ∉ ids → untouched vid st0 st0 →
  untouched vid st0 (final (transcribe_loop model downloaded ids st0)).
Proof.
  intros Hnotin H0. apply (transcribe_loop_ind (untouched vid st0)); [done|].
  intros vid' s Hin Hs. apply untouched_turn; [|done]. by intros ->.
Qed.

End Untouched.

(** C10. The transform phase only considers items whose fetch state is
    ok: for an item that is absent from the downloaded mapping, or whose
    downloaded status is not ok, the transform collaborator is not invoked
    and the item's transform state is what it was before the phase, in the
    returned mapping and in [progress]. *)
Theorem transform_ignores_unfetched (model : transcriber) (entries : list entry)
    (downloaded : gmap string (gmap string jval)) (progress : progress) (w : world)
    (vid : string) :
  has_status downloaded vid "ok" = false →
  let st' := final (transcribe_audio model entries downloaded progress w) in
  (∀ p, EvTranscribe vid p ∈ trace (st_world st') → EvTranscribe vid p ∈ trace w)
  ∧ st_map st' !! vid = default ∅ (pg_transcribed progress) !! vid
  ∧ default ∅ (pg_transcribed (st_progress st')) !! vid
    = default ∅ (pg_transcribed progress) !! vid.
Proof.
  intros Hnot st'.
  assert (Hun : untouched vid (start_of (pg_transcribed progress) progress w) st').
  { unfold st'. rewrite transcribe_audio_final. apply untouched_loop.
    - intros Hin. apply elem_of_transform_order in Hin as [_ Hok]. congruence.
    - unfold untouched; simpl. repeat split; [done|].
      destruct (pg_transcribed progress); auto. }
  destruct Hun as (Hmap & Htr & Hpg); simpl in *.
  repeat split; [exact Htr | exact Hmap |].
  destruct Hpg as [-> | [-> ->]]; [exact Hmap | done].
Qed.

Lemma transform_ignores_unfetched_witness :
  st_map (final (transcribe_audio Sample.model_hallo Sample.entries Sample.one_fetched
                   empty_progress Sample.no_files)) !! "200" = None.
Proof.
  destruct (transform_ignores_unfetched Sample.model_hallo Sample.entries Sample.one_fetched
              empty_progress Sample.no_files "200") as (_ & Hmap & _);
    [vm_compute; reflexivity|].
  rewrite Hmap. reflexivity.
Defined.

(** ** Visiting order of the two phases *)

Section Order.

Implicit Types (l : list string) (x : string).

Lemma elem_of_first_seen l x : x ∈ first_seen l ↔ x ∈ l.
Proof.
  induction l as [|y l IH]; simpl; [done|].
  rewrite !elem_of_cons, list_elem_of_filter, IH.
  destruct (decide (x = y)); tauto.
Qed.

Lemma NoDup_first_seen l : NoDup (first_seen l).
Proof.
  induction l as [|y l IH]; simpl; [constructor|].
  constructor; [|by apply NoDup_filter].
  rewrite list_elem_of_filter. tauto.
Qed.

Lemma in_keys_spec x (unique_ids : list (string * string)) :
  in_keys x unique_ids = true ↔ x ∈ unique_ids.*1.
Proof.
  unfold in_keys. induction unique_ids as [|[k v] acc IH]; simpl.
  - rewrite elem_of_nil. split; [done | tauto].
  - rewrite orb_true_iff, IH, elem_of_cons, String.eqb_eq. split; intros [?|?]; auto.
Qed.

Lemma item_keys_cons (e : entry) (entries : list entry) :
  item_keys (e :: entries)
  = match item_key e with
    | Some y => y :: item_keys entries
    | None => item_keys entries
    end.
Proof. reflexivity. Qed.

Lemma filter_not_in_nil l : filter (λ y, y ∉ ([] : list string)) l = l.
Proof.
  induction l as [|y l IH]; [done|].
  rewrite filter_cons_True by apply not_elem_of_nil. by rewrite IH.
Qed.

(** The keys of [unique_ids] after the collecting loop: those it started
    with, then the new ones in the order of their first appearance. *)
Lemma collect_unique_ids_keys (entries : list entry) (acc : list (string * string)) :
  (collect_unique_ids entries acc).*1
  = acc.*1 ++ filter (λ y, y ∉ acc.*1) (first_seen (item_keys entries)).
Proof.
  revert acc. induction entries as [|e entries IH]; intros acc.
  - simpl. by rewrite app_nil_r.
  - rewrite item_keys_cons. cbn [collect_unique_ids]. rewrite IH. unfold item_key.
    destruct (vimeo_id e) as [v|]; [|done].
    destruct (nonempty v); simpl; [|done].
    destruct (in_keys v acc) eqn:Hin; simpl.
    + apply in_keys_spec in Hin.
      rewrite filter_cons_False by tauto.
      rewrite list_filter_filter. f_equal. apply list_filter_iff.
      intros y. split; [|tauto]. intros Hy. split; [done|]. by intros ->.
    + assert (v ∉ acc.*1) as Hnin.
      { intros Hv. apply in_keys_spec in Hv. congruence. }
      rewrite filter_cons_True by done.
      rewrite fmap_app; simpl. rewrite <- app_assoc; simpl. do 2 f_equal.
      rewrite list_filter_filter. apply list_filter_iff.
      intros y. rewrite elem_of_app, list_elem_of_singleton. tauto.
Qed.

Lemma fetch_order_first_seen (entries : list entry) :
  fetch_order entries = first_seen (item_keys entries).
Proof.
  unfold fetch_order. rewrite collect_unique_ids_keys. simpl. apply filter_not_in_nil.
Qed.

Lemma NoDup_fetch_order (entries : list entry) : NoDup (fetch_order entries).
Proof. rewrite fetch_order_first_seen. apply NoDup_first_seen. Qed.

Lemma StronglySorted_sorted (s : gset string) : StronglySorted String.le (sorted s).
Proof. unfold sorted. apply StronglySorted_merge_sort; apply _. Qed.

End Order.



(** ** Failure isolation *)

Section Isolation.

Implicit Types (st : state) (vid : string) (downloaded : gmap string (gmap string jval)).







End Isolation.






(** ** Row references without ItemKey *)

Section NoIdentifier.

Implicit Types (e : entry) (entries : list entry).

Lemma read_rows_app (decimal : N → bool) (r : nat) (rows1 rows2 : list sheet_row) :
  read_rows decimal r (rows1 ++ rows2)
  = read_rows decimal r rows1 ++ read_rows decimal (r + length rows1) rows2.
Proof.
  revert r. induction rows1 as [|sr rows1 IH]; intros r; simpl.
  - by rewrite Nat.add_0_r.
  - rewrite IH, <- app_assoc. do 3 f_equal. lia.
Qed.

Lemma collect_unique_ids_without e entries1 entries2 acc :
  vimeo_id e = None →
  collect_unique_ids (entries1 ++ e :: entries2) acc
  = collect_unique_ids (entries1 ++ entries2) acc.
Proof.
  intros Hnone. revert acc. induction entries1 as [|e1 entries1 IH]; intros acc; simpl.
  - by rewrite Hnone.
  - apply IH.
Qed.

Lemma collect_ids_to_transcribe_without e entries1 entries2 downloaded acc :
  vimeo_id e = None →
  collect_ids_to_transcribe (entries1 ++ e :: entries2) downloaded acc
  = collect_ids_to_transcribe (entries1 ++ entries2) downloaded acc.
Proof.
  intros Hnone. revert acc. induction entries1 as [|e1 entries1 IH]; intros acc; simpl.
  - by rewrite Hnone.
  - apply IH.
Qed.

Lemma row_status_total e transcribed downloaded :
  wf_transcribed transcribed → ∃ v, row_status e transcribed downloaded = inr v.
Proof.
  intros Hwf. unfold row_status.
  destruct (negb (nonempty (default "" (vimeo_id e)))); [eauto|].
  destruct (has_status transcribed (default "" (vimeo_id e)) "ok") eqn:Hok.
  - unfold has_status in Hok.
    destruct (transcribed !! default "" (vimeo_id e)) as [r|] eqn:Hr; [|done].
    simpl. destruct (Hwf _ r Hr Hok) as [text ->]. eauto.
  - destruct (has_status downloaded (default "" (vimeo_id e)) "error"); [eauto|].
    destruct (has_status transcribed (default "" (vimeo_id e)) "error"); eauto.
Qed.

(** The export writes one line per entry, with the verdict of the entry. *)
Lemma export_rows_elem e entries transcribed downloaded rows :
  export_rows entries transcribed downloaded = inr rows →
  e ∈ entries →
  ∃ rr, rr ∈ rows ∧ rr_entry rr = e
        ∧ rr_vimeo_id rr = default "" (vimeo_id e)
        ∧ row_status e transcribed downloaded = inr (rr_verdict rr).
Proof.
  revert rows. induction entries as [|e1 entries IH]; intros rows Hexp Hin.
  - by apply elem_of_nil in Hin.
  - simpl in Hexp.
    destruct (row_status e1 transcribed downloaded) as [ex|v] eqn:Hv; [done|].
    destruct (export_rows entries transcribed downloaded) as [ex|rows'] eqn:Hrows; [done|].
    injection Hexp as <-.
    apply elem_of_cons in Hin as [-> | Hin].
    + eexists. split; [apply list_elem_of_here|]. by simpl.
    + destruct (IH rows' eq_refl Hin) as (rr & Hrr & Hrest).
      exists rr. split; [by apply list_elem_of_further | done].
Qed.

Lemma export_rows_total entries transcribed downloaded :
  wf_transcribed transcribed → ∃ rows, export_rows entries transcribed downloaded = inr rows.
Proof.
  intros Hwf. induction entries as [|e entries [rows IH]]; simpl; [eauto|].
  destruct (row_status_total e transcribed downloaded Hwf) as [v ->].
  rewrite IH. eauto.
Qed.

End NoIdentifier.

(** ** Identifiers and cleaned URLs *)

Section Identifiers.

Variable decimal : N → bool.

Implicit Types (s d p pre post rest : string) (c : ascii) (ch : string).

Lemma drop_prefix_Some p s rest : Str.drop_prefix p s = Some rest → s = p +:+ rest.
Proof.
  revert s. induction p as [|c p IH]; intros s; simpl.
  - by intros [= ->].
  - destruct s as [|c' s]; [done|]. destruct (Ascii.eqb c c') eqn:Hc; [|done].
    apply Ascii.eqb_eq in Hc as ->. intros Hp. by rewrite str_app_cons, <- (IH s Hp).
Qed.

Lemma drop_prefix_app_same p rest : Str.drop_prefix p (p +:+ rest) = Some rest.
Proof.
  induction p as [|c p IH]; [done|]. rewrite str_app_cons. simpl.
  by rewrite Ascii.eqb_refl.
Qed.

Lemma concat_nil_inv (l : list string) : char_list l → Str.concat l = "" → l = [].
Proof.
  destruct l as [|ch l]; [done|]. intros [Hl _]. apply Forall_cons in Hl as [Hch _].
  by destruct ch.
Qed.

(** The greedy run of digits and what follows it. *)
Lemma digits_split rest :
  ∃ ds ps, Str.chars rest = ds ++ ps ∧ Str.digits decimal rest = Str.concat ds
           ∧ all_of decimal ds ∧ none_ahead decimal ps.
Proof.
  exists (Str.take_while (Str.char_is decimal) (Str.chars rest)),
         (Str.drop_while (Str.char_is decimal) (Str.chars rest)).
  split; [by rewrite take_drop_while|]. split; [done|].
  split; [apply take_while_all | intros ch; apply drop_while_head].
Qed.

Lemma digits_nonempty rest ch :
  head (Str.chars rest) = Some ch → Str.char_is decimal ch = true →
  Str.digits decimal rest ≠ "".
Proof.
  unfold Str.digits. pose proof (char_list_chars rest) as [Hl _].
  destruct (Str.chars rest) as [|ch' l]; [done|]. intros [= ->] Hch. simpl. rewrite Hch.
  apply Forall_cons in Hl as [Hone _]. by destruct ch.
Qed.

Lemma match_here_Some s d :
  match_here decimal s = Some d →
  ∃ rest ds ps, s = "vimeo.com/" +:+ rest ∧ Str.chars rest = ds ++ ps
                ∧ d = Str.concat ds ∧ ds ≠ []
                ∧ all_of decimal ds ∧ none_ahead decimal ps.
Proof.
  unfold match_here.
  destruct (Str.drop_prefix "vimeo.com/" s) as [rest|] eqn:Hp; [|done].
  apply drop_prefix_Some in Hp.
  destruct (digits_split rest) as (ds & ps & Hrest & Hd & Hall & Hps).
  destruct (Str.digits decimal rest) as [|c d'] eqn:Hdigits; [done|]. intros [= <-].
  exists rest, ds, ps. repeat split; try done. intros ->. by rewrite Hd in Hdigits.
Qed.

Lemma match_here_found rest ch :
  head (Str.chars rest) = Some ch → Str.char_is decimal ch = true →
  match_here decimal ("vimeo.com/" +:+ rest) ≠ None.
Proof.
  intros Hhead Hch. unfold match_here. rewrite drop_prefix_app_same.
  pose proof (digits_nonempty rest ch Hhead Hch). by destruct (Str.digits decimal rest).
Qed.

Lemma search_cons c s :
  search_vimeo_id decimal (String c s) ≠ None
  ↔ match_here decimal (String c s) ≠ None ∨ search_vimeo_id decimal s ≠ None.
Proof.
  cbn [search_vimeo_id]. destruct (match_here decimal (String c s)); split; auto.
  by intros [?|?].
Qed.

Lemma search_app_l pre s :
  search_vimeo_id decimal s ≠ None → search_vimeo_id decimal (pre +:+ s) ≠ None.
Proof.
  intros Hs. induction pre as [|c pre IH]; [done|].
  rewrite str_app_cons, search_cons. by right.
Qed.

Lemma search_here s : match_here decimal s ≠ None → search_vimeo_id decimal s ≠ None.
Proof.
  destruct s as [|c s]; [by vm_compute|]. intros H. apply search_cons. by left.
Qed.

Lemma search_Some s d :
  search_vimeo_id decimal s = Some d →
  ∃ pre suf, s = pre +:+ suf ∧ match_here decimal suf = Some d
    ∧ ∀ a b, pre = a +:+ b → b ≠ "" → match_here decimal (b +:+ suf) = None.
Proof.
  induction s as [|c s IH].
  - intros Hs. vm_compute in Hs. discriminate Hs.
  - cbn [search_vimeo_id]. destruct (match_here decimal (String c s)) as [ds|] eqn:Hhere.
    + intros [= ->]. exists "", (String c s). split; [done|]. split; [done|].
      intros a b Hab Hb. destruct a as [|c' a].
      * change ("" +:+ b) with b in Hab. by subst b.
      * rewrite str_app_cons in Hab. discriminate Hab.
    + intros Hs. destruct (IH Hs) as (pre & suf & -> & Hsuf & Hleft).
      exists (String c pre), suf. split; [done|]. split; [done|].
      intros a b Hab Hb. destruct a as [|c' a].
      * change ("" +:+ b) with b in Hab. by subst b.
      * rewrite str_app_cons in Hab. injection Hab as _ Hab. by apply (Hleft a b).
Qed.

Lemma extract_none s :
  extract_vimeo_id decimal s = None ↔ search_vimeo_id decimal s = None.
Proof.
  unfold extract_vimeo_id. destruct (String.eqb_spec s "") as [->|]; [|done].
  by vm_compute.
Qed.

(** What an extracted identifier is. *)
Lemma extract_Some url d :
  extract_vimeo_id decimal url = Some d →
  ∃ pre rest ds ps,
    url = pre +:+ "vimeo.com/" +:+ rest
    ∧ Str.chars rest = ds ++ ps
    ∧ d = Str.concat ds ∧ ds ≠ []
    ∧ all_of decimal ds ∧ none_ahead decimal ps
    ∧ ∀ a b, pre = a +:+ b → b ≠ "" →
             match_here decimal (b +:+ "vimeo.com/" +:+ rest) = None.
Proof.
  unfold extract_vimeo_id. destruct (String.eqb url ""); [done|]. intros Hs.
  destruct (search_Some url d Hs) as (pre & suf & -> & Hhere & Hleft).
  destruct (match_here_Some suf d Hhere) as (rest & ds & ps & -> & Hrest).
  exists pre, rest, ds, ps. split; [done|].
  destruct Hrest as (? & ? & ? & ? & ?). by repeat split.
Qed.

(** No identifier is extracted exactly when no "vimeo.com/" of the URL is
    followed by a character of the class. *)
Lemma extract_none_iff url :
  extract_vimeo_id decimal url = None
  ↔ ∀ pre rest, url = pre +:+ "vimeo.com/" +:+ rest → none_ahead decimal (Str.chars rest).
Proof.
  split.
  - intros Hnone pre rest -> ch Hhead.
    destruct (Str.char_is decimal ch) eqn:Hch; [|done]. exfalso.
    apply extract_none in Hnone. revert Hnone.
    apply search_app_l, search_here. by eapply match_here_found.
  - intros Hall. destruct (extract_vimeo_id decimal url) as [d|] eqn:Hd; [|done]. exfalso.
    destruct (extract_Some url d Hd) as (pre & rest & ds & ps & Hurl & Hrest & _ & Hne & Hds & _).
    destruct ds as [|ch ds]; [done|]. apply Forall_cons in Hds as [Hch _].
    rewrite (Hall pre rest Hurl ch) in Hch; [done|]. by rewrite Hrest.
Qed.

(** The characters of an identifier are those of the run it was read
    from. *)
Lemma chars_of_run rest (ds ps : list string) :
  Str.chars rest = ds ++ ps → Str.chars (Str.concat ds) = ds.
Proof.
  intros Hrest. apply chars_concat. apply (char_list_prefix _ ps).
  rewrite <- Hrest. apply char_list_chars.
Qed.

End Identifiers.

Section Cleaning.

Implicit Types (s a b q : string) (c : ascii) (ch : string).

Lemma has_char_app c a b : has_char c (a +:+ b) = has_char c a || has_char c b.
Proof.
  induction a as [|d a IH]; [done|]. rewrite str_app_cons. simpl.
  by rewrite IH, orb_assoc.
Qed.

Lemma has_char_before c s : has_char c (Str.before c s) = false.
Proof.
  induction s as [|c' s IH]; [done|]. simpl.
  destruct (Ascii.eqb c' c) eqn:Hc; [done|]. simpl. by rewrite Hc.
Qed.

Lemma before_without c s : has_char c s = false → Str.before c s = s.
Proof.
  induction s as [|c' s IH]; [done|]. simpl.
  intros Hs. apply orb_false_iff in Hs as [-> Hs]. by rewrite IH.
Qed.

Lemma before_split c s :
  ∃ q, s = Str.before c s +:+ q ∧ (q = "" ∨ ∃ q', q = String c q').
Proof.
  induction s as [|c' s (q & IH & Hq)]; simpl; [exists ""; by split; [|left]|].
  destruct (Ascii.eqb c' c) eqn:Hc.
  - apply Ascii.eqb_eq in Hc as ->. exists (String c s). split; [done|]. right. by eexists.
  - exists q. split; [|done]. by rewrite str_app_cons, <- IH.
Qed.

(** A character that encodes a code point starts with a first byte. *)
Lemma codepoint_starts ch (cp : N) : Str.codepoint ch = Some cp → Str.starts_inside ch = false.
Proof.
  unfold Str.codepoint, Str.starts_inside, Str.is_continuation.
  destruct ch as [|c0 [|c1 [|c2 [|c3 [|c4 t]]]]]; try done.
  - destruct (N.ltb_spec (Str.byte c0) 128); [|done]. intros _.
    apply andb_false_iff. left. apply N.leb_gt. lia.
  - destruct (N.leb_spec 192 (Str.byte c0)); [|done]. intros _.
    apply andb_false_iff. right. apply N.ltb_ge. lia.
  - destruct (N.leb_spec 224 (Str.byte c0)); [|done]. intros _.
    apply andb_false_iff. right. apply N.ltb_ge. lia.
  - destruct (N.leb_spec 240 (Str.byte c0)); [|done]. intros _.
    apply andb_false_iff. right. apply N.ltb_ge. lia.
Qed.

Lemma all_of_starts (test : N → bool) (l : list string) :
  all_of test l → Str.starts_inside (Str.concat l) = false.
Proof.
  destruct l as [|ch l]; [done|]. intros Hl. apply Forall_cons in Hl as [Hch _].
  unfold Str.char_is in Hch. destruct (Str.codepoint ch) as [cp|] eqn:Hcp; [|done].
  destruct ch as [|c t]; [done|]. by apply codepoint_starts in Hcp.
Qed.

(** [strip] removes a run of blanks at either end and nothing else. *)
Lemma strip_split s :
  ∃ a b, s = a +:+ Str.strip s +:+ b
         ∧ all_of Str.is_space (Str.chars a) ∧ all_of Str.is_space (Str.chars b)
         ∧ Str.starts_inside b = false.
Proof.
  pose proof (char_list_chars s) as Hs.
  pose proof (take_drop_while (Str.char_is Str.is_space) (Str.chars s)) as Hsplit.
  destruct (drop_while_end_prefix (Str.char_is Str.is_space)
              (Str.drop_while (Str.char_is Str.is_space) (Str.chars s))) as (k & Hk & Hblank).
  exists (Str.concat (Str.take_while (Str.char_is Str.is_space) (Str.chars s))), (Str.concat k).
  assert (Hstrip : Str.strip s
                   = Str.concat (Str.drop_while_end (Str.char_is Str.is_space)
                                   (Str.drop_while (Str.char_is Str.is_space) (Str.chars s)))).
  { unfold Str.strip, Str.rstrip. by rewrite chars_lstrip. }
  split; [|split; [|split]].
  - rewrite Hstrip, <- !concat_app, <- Hk, Hsplit. by rewrite concat_chars.
  - rewrite chars_concat; [apply take_while_all|].
    apply (char_list_prefix _ (Str.drop_while (Str.char_is Str.is_space) (Str.chars s))).
    by rewrite Hsplit.
  - rewrite chars_concat; [exact Hblank|].
    apply (char_list_suffix _ (Str.drop_while_end (Str.char_is Str.is_space)
                                 (Str.drop_while (Str.char_is Str.is_space) (Str.chars s)))).
    rewrite <- Hk.
    apply (char_list_suffix _ (Str.take_while (Str.char_is Str.is_space) (Str.chars s))).
    by rewrite Hsplit.
  - by apply (all_of_starts Str.is_space).
Qed.

Lemma has_char_strip c s : has_char c s = false → has_char c (Str.strip s) = false.
Proof.
  destruct (strip_split s) as (a & b & Hs & _). intros Hc. rewrite Hs in Hc.
  rewrite !has_char_app in Hc. apply orb_false_iff in Hc as [_ Hc].
  by apply orb_false_iff in Hc as [? _].
Qed.

Lemma clean_without_query (video : cell) : has_char "?" (clean_vimeo_url video) = false.
Proof.
  unfold clean_vimeo_url. destruct (truthy video); simpl; [|done].
  apply has_char_strip, has_char_before.
Qed.

Lemma clean_idem (video : cell) :
  clean_vimeo_url (CStr (clean_vimeo_url video)) = clean_vimeo_url video.
Proof.
  pose proof (clean_without_query video) as Hq.
  unfold clean_vimeo_url at 1. simpl.
  destruct (String.eqb_spec (clean_vimeo_url video) "") as [-> | Hne]; [done|]. simpl.
  rewrite before_without by done.
  unfold clean_vimeo_url in *. destruct (truthy video); simpl in *; [|done].
  apply strip_idem.
Qed.

(** The cleaned URL inside the text of the cell. *)
Lemma clean_split (video : cell) :
  truthy video = true →
  ∃ a b q, str video = a +:+ clean_vimeo_url video +:+ b +:+ q
           ∧ all_of Str.is_space (Str.chars a) ∧ all_of Str.is_space (Str.chars b)
           ∧ Str.starts_inside (b +:+ q) = false
           ∧ (q = "" ∨ ∃ q', q = String "?" q').
Proof.
  intros Htruthy. unfold clean_vimeo_url. rewrite Htruthy. simpl.
  destruct (before_split "?" (str video)) as (q & Hq & Hquery).
  destruct (strip_split (Str.before "?" (str video))) as (a & b & Hs & Ha & Hb & Hstart).
  exists a, b, q. split; [|split; [done|]; split; [done|]; split; [|done]].
  - rewrite Hq at 1. rewrite Hs at 1. by rewrite !str_app_assoc.
  - destruct b as [|c b]; [|exact Hstart].
    destruct Hquery as [-> | [q' ->]]; done.
Qed.

End Cleaning.

(** The characters of a string followed by one that starts at a character
    boundary. *)
Lemma chars_app (a b : string) :
  Str.starts_inside b = false → Str.chars (a +:+ b) = Str.chars a ++ Str.chars b.
Proof.
  intros Hb. induction a as [|c a IH]; [done|].
  rewrite str_app_cons, !chars_cons, IH.
  destruct (Str.chars a) as [|ch rest] eqn:Ha; simpl.
  - destruct (Str.chars b) as [|ch rest] eqn:Hch; [done|].
    by rewrite (chars_head_starts _ _ _ Hch), Hb.
  - by destruct (Str.starts_inside ch).
Qed.

(** C8. A sheet row whose URL slot names the host ("vimeo" in any letter
    case) while its cleaned URL has no "vimeo.com/" followed by a digit
    still gives a row reference: the entry of that row and link kind, with
    the columns of the row, the stripped text of the cell, its cleaned URL
    and no ItemKey; the fetch and transform phases run exactly as if that
    row reference were not in the list; and the report has a line for it,
    with an empty id and the status no_identifier. *)
Theorem link_without_id_is_reported (decimal : N → bool) (rows1 rows2 : list sheet_row)
    (sr : sheet_row) (typ : string) (video : cell) :
  (typ = "kurz" ∧ video = c_video_kurz sr) ∨ (typ = "lang" ∧ video = c_video_lang sr) →
  truthy video = true →
  Str.contains "vimeo" (Str.lower (str video)) = true →
  (∀ pre rest, clean_vimeo_url video = pre +:+ "vimeo.com/" +:+ rest →
               none_ahead decimal (Str.chars rest)) →
  let e := {| row := 2 + length rows1;
              order := c_order sr;
              modul := if truthy (c_modul sr) then str (c_modul sr) else "";
              bereich := if truthy (c_bereich sr) then str (c_bereich sr) else "";
              kategorie := if truthy (c_kategorie sr) then str (c_kategorie sr) else "";
              uebung := if truthy (c_uebung sr) then str (c_uebung sr) else "";
              link_typ := typ;
              url := Str.strip (str video);
              url_clean := clean_vimeo_url video;
              vimeo_id := None |} in
  let entries := read_excel decimal (rows1 ++ sr :: rows2) in
  let reported := {| v_status := "keine_vimeo_id"; v_text := JStr ""; v_audio_dur := JStr "" |} in
  (∃ before after, entries = before ++ e :: after
     ∧ (∀ (ydl : fetcher) progress w,
          download_audio ydl entries progress w
          = download_audio ydl (before ++ after) progress w)
     ∧ (∀ (model : transcriber) downloaded progress w,
          transcribe_audio model entries downloaded progress w
          = transcribe_audio model (before ++ after) downloaded progress w))
  ∧ (∀ transcribed downloaded, row_status e transcribed downloaded = inr reported)
  ∧ (∀ transcribed downloaded,
       wf_transcribed transcribed →
       ∃ rows, export_rows entries transcribed downloaded = inr rows
         ∧ ∃ rr, rr ∈ rows ∧ rr_entry rr = e ∧ rr_vimeo_id rr = ""
                 ∧ rr_verdict rr = reported).
Proof.
  intros Hslot Htruthy Hvimeo Hnoid e entries reported.
  assert (Hlink : is_vimeo_link video = true).
  { unfold is_vimeo_link. by rewrite Htruthy, Hvimeo. }
  assert (He : link_entry decimal (2 + length rows1) sr typ video = e).
  { unfold link_entry, e. by rewrite (proj2 (extract_none_iff decimal _) Hnoid). }
  assert (Hin : e ∈ entries).
  { unfold entries, read_excel. rewrite read_rows_app. apply elem_of_app. right.
    simpl. apply elem_of_app. left. unfold row_entries. rewrite <- He.
    destruct Hslot as [[-> ->] | [-> ->]]; rewrite Hlink.
    - apply elem_of_app. left. apply list_elem_of_here.
    - apply elem_of_app. right. apply list_elem_of_here. }
  assert (Hstatus : ∀ transcribed downloaded,
             row_status e transcribed downloaded = inr reported) by done.
  split; [|split; [done|]].
  - destruct (list_elem_of_split _ _ Hin) as (before & after & Heq).
    exists before, after. split; [done|]. split.
    + intros ydl progress w. unfold download_audio.
      by rewrite Heq, collect_unique_ids_without.
    + intros model downloaded progress w. unfold transcribe_audio.
      by rewrite Heq, collect_ids_to_transcribe_without.
  - intros transcribed downloaded Hwf.
    destruct (export_rows_total entries transcribed downloaded Hwf) as [rows Hrows].
    exists rows. split; [done|].
    destruct (export_rows_elem e entries transcribed downloaded rows Hrows Hin)
      as (rr & Hrr & Hentry & Hid & Hv).
    exists rr. rewrite Hstatus in Hv. repeat split; [done..|]. by injection Hv.
Qed.

Lemma link_without_id_is_reported_witness :
  {| row := 2; order := CInt 1; modul := "5"; bereich := "A"; kategorie := "";
     uebung := "Uebung"; link_typ := "kurz"; url := "https://VIMEO.com/manage/videos";
     url_clean := "https://VIMEO.com/manage/videos"; vimeo_id := None |}
  ∈ read_excel Sample.decimal [Sample.row_without_id].
Proof.
  destruct (link_without_id_is_reported Sample.decimal [] [] Sample.row_without_id "kurz"
              (c_video_kurz Sample.row_without_id))
    as [(before & after & Heq & _) _].
  - left. split; reflexivity.
  - reflexivity.
  - reflexivity.
  - apply extract_none_iff. vm_compute. reflexivity.
  - change ([] ++ [Sample.row_without_id]) with [Sample.row_without_id] in Heq.
    rewrite Heq. apply elem_of_app. right. apply list_elem_of_here.
Defined.

(** The identifier is searched in the cleaned URL, which is a part of the
    text of the cell: a cell text in which no "vimeo.com/" is followed by a
    digit has none after cleaning either. *)
Lemma cleaned_url_without_id (decimal : N → bool) (video : cell) :
  extract_vimeo_id decimal (str video) = None →
  extract_vimeo_id decimal (clean_vimeo_url video) = None.
Proof.
  rewrite !extract_none_iff. intros Hraw pre rest Hclean ch Hhead.
  destruct (truthy video) eqn:Htruthy.
  - destruct (clean_split video Htruthy) as (a & b & q & Hvideo & _ & _ & Hstart & _).
    apply (Hraw (a +:+ pre) (rest +:+ b +:+ q)).
    + rewrite Hvideo, Hclean. by rewrite !str_app_assoc.
    + rewrite chars_app by done. by destruct (Str.chars rest).
  - unfold clean_vimeo_url in Hclean. rewrite Htruthy in Hclean. simpl in Hclean.
    destruct pre; discriminate Hclean.
Qed.

(** ** The pipeline on small worklists *)

Section EndToEnd.

(** Item 100 is fetched and transcribed, the fetch of item 200 times out:
    three report lines, two ok and one fetch_failed. *)
Example report_with_failed_fetch :
  Sample.pipeline Sample.ydl_poisoned Sample.model_hallo
  = inr [ ("100", "ok", JStr "hallo");
          ("100", "ok", JStr "hallo");
          ("200", "download_fehlgeschlagen", JStr "[Fehler: timeout]") ].
Proof. vm_compute. reflexivity. Qed.

(** The transcription of item 100 fails; item 200, later in the same
    loop, is transcribed. *)
Example report_with_failed_transcription :
  Sample.pipeline Sample.ydl_writes Sample.model_poisoned
  = inr [ ("100", "transkription_fehlgeschlagen", JStr "[Fehler: boom]");
          ("100", "transkription_fehlgeschlagen", JStr "[Fehler: boom]");
          ("200", "ok", JStr "hallo") ].
Proof. vm_compute. reflexivity. Qed.

(** A fetch that returns without leaving the file counts as failed, and
    nothing is transcribed. *)
Example report_without_artifact :
  Sample.pipeline Sample.ydl_silent Sample.model_fails
  = inr [ ("100", "download_fehlgeschlagen", JStr "[Fehler: Datei nicht gefunden nach Download]");
          ("100", "download_fehlgeschlagen", JStr "[Fehler: Datei nicht gefunden nach Download]");
          ("200", "download_fehlgeschlagen", JStr "[Fehler: Datei nicht gefunden nach Download]") ].
Proof. vm_compute. reflexivity. Qed.

(** A link whose number is written in Arabic-Indic digits has an
    identifier, which the fetch phase visits; the no-break space after it
    is stripped. *)
Example link_with_arabic_indic_digits :
  map (λ e, (url_clean e, vimeo_id e)) (read_excel Sample.decimal [Sample.row_arabic])
  = [("https://vimeo.com/١٢٣", Some "١٢٣")]
  ∧ fetch_order (read_excel Sample.decimal [Sample.row_arabic]) = ["١٢٣"].
Proof. vm_compute. by split. Qed.

(** A slice counts characters, not bytes: the first two of three letters
    of two bytes each. *)
Example slice_counts_characters :
  Str.take 2 "äöü" = "äö" ∧ String.length (Str.take 2 "äöü") = 4.
Proof. vm_compute. by split. Qed.

(** A transcription that reports a duration that is not a number: the item
    is stored as failed, with the text of the exception, the checkpoint is
    written, and the run ends with a [ValueError] in the summary after the
    loop. *)
Example run_with_duration_nan :
  ∃ st,
    transcribe_audio Sample.model_nan [Sample.e100] Sample.one_fetched Sample.fetched_100
      {| files := <[audio_path_of "100" := Blob]> ∅; trace := [] |}
    = Raised ValueError st
    ∧ st_map st !! "100" = Some (error_record "cannot convert float NaN to integer")
    ∧ persisted st.
Proof. eexists. vm_compute. by repeat split. Qed.

End EndToEnd.

(** * Further properties of the script *)

(** ** Whole runs of the two phases *)

Section Runs.

Implicit Types (st s : state) (vid : string) (downloaded : gmap string (gmap string jval)).

Lemma download_item_other (ydl : fetcher) vid url s vid' :
  vid' ≠ vid →
  st_map (final (download_item ydl vid url s)) !! vid' = st_map s !! vid'.
Proof.
  intros Hne. destruct (download_item_cases ydl vid url s) as [-> | ->]; [done|].
  rewrite download_attempt_eq. simpl. by rewrite lookup_insert_ne.
Qed.

Lemma download_loop_other (ydl : fetcher) (items : list (string * string)) st vid :
  vid ∉ items.*1 →
  st_map (final (download_loop ydl items st)) !! vid = st_map st !! vid.
Proof.
  intros Hout.
  apply (download_loop_ind (λ s, st_map s !! vid = st_map st !! vid)); [done|].
  intros vid' url s Hin Hs. rewrite download_item_other; [done|].
  intros ->. apply Hout. apply list_elem_of_fmap. by exists (vid', url).
Qed.

Lemma transcribe_item_other (model : transcriber) downloaded vid s vid' :
  vid' ≠ vid →
  st_map (final (transcribe_item model downloaded vid s)) !! vid' = st_map s !! vid'.
Proof.
  intros Hne.
  destruct (transcribe_item_cases model downloaded vid s) as [-> | [-> | [p ->]]].
  - done.
  - simpl. by rewrite lookup_insert_ne.
  - rewrite transcribe_attempt_eq. simpl. by rewrite lookup_insert_ne.
Qed.

Lemma transcribe_loop_other (model : transcriber) downloaded (ids : list string) st vid :
  vid ∉ ids →
  st_map (final (transcribe_loop model downloaded ids st)) !! vid = st_map st !! vid.
Proof.
  intros Hout.
  apply (transcribe_loop_ind (λ s, st_map s !! vid = st_map st !! vid)); [done|].
  intros vid' s Hin Hs. rewrite transcribe_item_other; [done|]. by intros ->.
Qed.

(** What one turn appends to the trace: nothing, or the call followed by
    the write of the progress file. *)
Lemma download_item_trace (ydl : fetcher) vid url s :
  ∃ evs, trace (st_world (final (download_item ydl vid url s))) = trace (st_world s) ++ evs
    ∧ (evs = [] ∨ ∃ p, evs = [EvFetch vid url; EvSave PROGRESS_FILE p]).
Proof.
  destruct (download_item_cases ydl vid url s) as [-> | ->].
  - exists []. split; [by rewrite app_nil_r | by left].
  - rewrite download_attempt_eq. eexists. split; [|right; eexists; reflexivity].
    simpl. by rewrite <- app_assoc.
Qed.

Lemma transcribe_item_trace (model : transcriber) downloaded vid s :
  ∃ evs, trace (st_world (final (transcribe_item model downloaded vid s)))
         = trace (st_world s) ++ evs
    ∧ (evs = [] ∨ ∃ a p, evs = [EvTranscribe vid a; EvSave PROGRESS_FILE p]).
Proof.
  destruct (transcribe_item_cases model downloaded vid s) as [-> | [-> | [a ->]]].
  - exists []. split; [by rewrite app_nil_r | by left].
  - exists []. split; [by rewrite app_nil_r | by left].
  - rewrite transcribe_attempt_eq. eexists. split; [|right; do 2 eexists; reflexivity].
    simpl. by rewrite <- app_assoc.
Qed.

Lemma download_loop_trace (ydl : fetcher) (items : list (string * string)) st :
  ∃ evs, trace (st_world (final (download_loop ydl items st))) = trace (st_world st) ++ evs
    ∧ fetch_calls evs `sublist_of` items.*1
    ∧ transcribe_calls evs = []
    ∧ length (saves evs) = length (fetch_calls evs).
Proof.
  revert st. induction items as [|[vid url] items IH]; intros st.
  - exists []. simpl. by rewrite app_nil_r.
  - destruct (download_item_trace ydl vid url st) as (evs1 & Htr1 & Hevs1).
    simpl. destruct (download_item ydl vid url st) as [st1|e st1] eqn:Hitem; simpl in *.
    + destruct (IH st1) as (evs2 & Htr2 & Hsub & Hnone & Hlen).
      exists (evs1 ++ evs2). rewrite Htr2, Htr1, <- app_assoc. split; [done|].
      unfold fetch_calls, transcribe_calls, saves in *. rewrite !omap_app, !length_app.
      destruct Hevs1 as [-> | [p ->]]; simpl.
      * split; [by apply sublist_cons | done].
      * split; [by apply sublist_skip | by rewrite Hlen].
    + exists evs1. split; [done|].
      destruct Hevs1 as [-> | [p ->]]; simpl; [|split; [|done]].
      * split; [apply sublist_nil_l | done].
      * apply sublist_skip, sublist_nil_l.
Qed.

Lemma transcribe_loop_trace (model : transcriber) downloaded (ids : list string) st :
  ∃ evs, trace (st_world (final (transcribe_loop model downloaded ids st)))
         = trace (st_world st) ++ evs
    ∧ transcribe_calls evs `sublist_of` ids
    ∧ fetch_calls evs = []
    ∧ length (saves evs) = length (transcribe_calls evs).
Proof.
  revert st. induction ids as [|vid ids IH]; intros st.
  - exists []. simpl. by rewrite app_nil_r.
  - destruct (transcribe_item_trace model downloaded vid st) as (evs1 & Htr1 & Hevs1).
    simpl. destruct (transcribe_item model downloaded vid st) as [st1|e st1] eqn:Hitem;
      simpl in *.
    + destruct (IH st1) as (evs2 & Htr2 & Hsub & Hnone & Hlen).
      exists (evs1 ++ evs2). rewrite Htr2, Htr1, <- app_assoc. split; [done|].
      unfold fetch_calls, transcribe_calls, saves in *. rewrite !omap_app, !length_app.
      destruct Hevs1 as [-> | (a & p & ->)]; simpl.
      * split; [by apply sublist_cons | done].
      * split; [by apply sublist_skip | by rewrite Hlen].
    + exists evs1. split; [done|].
      destruct Hevs1 as [-> | (a & p & ->)]; simpl; [|split; [|done]].
      * split; [apply sublist_nil_l | done].
      * apply sublist_skip, sublist_nil_l.
Qed.

(** A turn that ends normally leaves its item with a state. *)
Lemma download_item_settled (ydl : fetcher) vid url s s' :
  download_item ydl vid url s = Normal s' → settled (st_map s') vid.
Proof.
  unfold download_item.
  destruct (download_skip (st_map s) (files (st_world s)) vid) as [e|[|]] eqn:Hskip; [done| |].
  - intros [= <-]. left. unfold download_skip, has_status in *.
    destruct (st_map s !! vid) as [r|]; [|done]. by destruct (status_is r "ok").
  - intros [= <-]. rewrite download_attempt_eq. simpl. unfold settled.
    rewrite !has_status_insert. unfold fetch_record.
    destruct (ydl _ _ _) as [[code|msg] fs]; simpl;
      [destruct (path_exists fs (audio_path_of vid))|]; auto.
Qed.

Lemma transcribe_item_settled (model : transcriber) downloaded vid s s' :
  transcribe_item model downloaded vid s = Normal s' → settled (st_map s') vid.
Proof.
  unfold transcribe_item, transcribe_skip.
  destruct (has_status (st_map s) vid "ok") eqn:Hok; [intros [= <-]; by left|].
  destruct (downloaded !! vid) as [r|]; [|done].
  destruct (r !! "path") as [a|]; [|done].
  destruct (os_path_exists (files (st_world s)) a) as [e|[|]]; [done| |].
  - intros [= <-]. rewrite transcribe_attempt_eq. simpl. unfold settled.
    rewrite !has_status_insert. unfold transcript_record.
    destruct (model _ _) as [[segs d c|msg] fs]; simpl; [|auto].
    destruct (format_duration d); auto.
  - intros [= <-]. simpl. unfold settled. rewrite !has_status_insert. by right.
Qed.

Lemma has_status_lookup (m m' : gmap string (gmap string jval)) vid x :
  m' !! vid = m !! vid → has_status m' vid x = has_status m vid x.
Proof. unfold has_status. by intros ->. Qed.

Lemma download_loop_settled (ydl : fetcher) (items : list (string * string)) st st' :
  NoDup items.*1 →
  download_loop ydl items st = Normal st' →
  ∀ vid, vid ∈ items.*1 → settled (st_map st') vid.
Proof.
  revert st. induction items as [|[vid url] items IH]; intros st Hnd Hloop vid' Hin.
  - by apply elem_of_nil in Hin.
  - simpl in Hnd, Hloop, Hin. apply NoDup_cons in Hnd as [Hnotin Hnd].
    destruct (download_item ydl vid url st) as [st1|e st1] eqn:Hitem; [|done].
    apply elem_of_cons in Hin as [-> | Hin]; [|by eapply IH].
    pose proof (download_item_settled _ _ _ _ _ Hitem) as Hset.
    pose proof (download_loop_other ydl items st1 vid Hnotin) as Hsame.
    rewrite Hloop in Hsame. simpl in Hsame.
    unfold settled. by rewrite !(has_status_lookup _ _ _ _ Hsame).
Qed.

Lemma transcribe_loop_settled (model : transcriber) downloaded (ids : list string) st st' :
  NoDup ids →
  transcribe_loop model downloaded ids st = Normal st' →
  ∀ vid, vid ∈ ids → settled (st_map st') vid.
Proof.
  revert st. induction ids as [|vid ids IH]; intros st Hnd Hloop vid' Hin.
  - by apply elem_of_nil in Hin.
  - simpl in Hloop. apply NoDup_cons in Hnd as [Hnotin Hnd].
    destruct (transcribe_item model downloaded vid st) as [st1|e st1] eqn:Hitem; [|done].
    apply elem_of_cons in Hin as [-> | Hin]; [|by eapply IH].
    pose proof (transcribe_item_settled _ _ _ _ _ Hitem) as Hset.
    pose proof (transcribe_loop_other model downloaded ids st1 vid Hnotin) as Hsame.
    rewrite Hloop in Hsame. simpl in Hsame.
    unfold settled. by rewrite !(has_status_lookup _ _ _ _ Hsame).
Qed.


End Runs.

Lemma fetch_call_listed (evs : list event) (vid url : string) :
  EvFetch vid url ∈ evs → vid ∈ fetch_calls evs.
Proof. intros Hin. apply list_elem_of_omap. by exists (EvFetch vid url). Qed.

Lemma transcribe_call_listed (evs : list event) (vid a : string) :
  EvTranscribe vid a ∈ evs → vid ∈ transcribe_calls evs.
Proof. intros Hin. apply list_elem_of_omap. by exists (EvTranscribe vid a). Qed.

Lemma sublist_StronglySorted (l1 l2 : list string) :
  StronglySorted String.le l2 → l1 `sublist_of` l2 → StronglySorted String.le l1.
Proof.
  intros Hsorted Hsub. induction Hsub as [|x l1 l2 Hsub IH|x l1 l2 Hsub IH].
  - constructor.
  - apply StronglySorted_inv in Hsorted as [Hl2 Hx]. constructor; [by apply IH|].
    eapply Forall_forall. intros y Hy. eapply Forall_forall in Hx; [exact Hx|].
    by eapply elem_of_sublist.
  - apply StronglySorted_inv in Hsorted as [Hl2 _]. by apply IH.
Qed.

(** X1. The fetch phase touches only the items of the worklist: the stored
    record of an id that no entry carries is returned as it was, and the
    fetch collaborator is not called for it. *)
Theorem fetch_leaves_other_items (ydl : fetcher) (entries : list entry)
    (progress : progress) (w : world) (vid : string) :
  vid ∉ fetch_order entries →
  let st' := final (download_audio ydl entries progress w) in
  st_map st' !! vid = default ∅ (pg_downloaded progress) !! vid
  ∧ ∀ url, EvFetch vid url ∈ trace (st_world st') → EvFetch vid url ∈ trace w.
Proof.
  intros Hout st'. unfold st', download_audio. split.
  - by rewrite download_loop_other.
  - intros url.
    destruct (download_loop_trace ydl (collect_unique_ids entries [])
                (start_of (pg_downloaded progress) progress w))
      as (evs & -> & Hsub & _). simpl.
    rewrite elem_of_app. intros [Hin | Hin]; [done|].
    exfalso. apply Hout. eapply elem_of_sublist; [|exact Hsub].
    by eapply fetch_call_listed.
Qed.

Lemma fetch_leaves_other_items_witness :
  st_map (final (download_audio Sample.ydl_writes [Sample.e100] Sample.done_100
                   Sample.disk_100_no_audio)) !! "200" = None.
Proof.
  destruct (fetch_leaves_other_items Sample.ydl_writes [Sample.e100] Sample.done_100
              Sample.disk_100_no_audio "200") as [Hmap _].
  - vm_compute. intros Hin. apply list_elem_of_singleton in Hin. discriminate Hin.
  - rewrite Hmap. reflexivity.
Defined.

(** X2. A stored transcript that says ok is final: whatever the entries,
    the fetched mapping, the files and the collaborator, a transcription
    run returns that record unchanged and does not call the collaborator
    for the item. *)
Theorem ok_transcript_is_final (model : transcriber) (entries : list entry)
    (downloaded : gmap string (gmap string jval)) (progress : progress) (w : world)
    (vid : string) :
  has_status (default ∅ (pg_transcribed progress)) vid "ok" = true →
  let st' := final (transcribe_audio model entries downloaded progress w) in
  st_map st' !! vid = default ∅ (pg_transcribed progress) !! vid
  ∧ ∀ a, EvTranscribe vid a ∈ trace (st_world st') → EvTranscribe vid a ∈ trace w.
Proof.
  intros Hok st'. unfold st'. rewrite transcribe_audio_final.
  apply (transcribe_loop_ind
           (λ s, st_map s !! vid = default ∅ (pg_transcribed progress) !! vid
                 ∧ ∀ a, EvTranscribe vid a ∈ trace (st_world s) → EvTranscribe vid a ∈ trace w));
    [done|].
  intros vid' s _ [Hmap Htr].
  destruct (decide (vid' = vid)) as [-> | Hne].
  - rewrite transcribe_item_skipped; [done|].
    unfold transcribe_skip. by rewrite (has_status_lookup _ _ _ _ Hmap).
  - split; [by rewrite transcribe_item_other|].
    intros a. destruct (transcribe_item_trace model downloaded vid' s) as (evs & -> & Hevs).
    rewrite elem_of_app. intros [Hin | Hin]; [by apply Htr|].
    destruct Hevs as [-> | (a' & p & ->)]; [by apply elem_of_nil in Hin|].
    apply elem_of_cons in Hin as [[= -> ->] | Hin]; [done|].
    by apply list_elem_of_singleton in Hin.
Qed.

Lemma ok_transcript_is_final_witness :
  st_map (final (transcribe_audio Sample.model_fails [Sample.e100] Sample.one_fetched
                   Sample.done_100 Sample.disk_100)) !! "100"
  = Some (ok_transcript "hallo" 12 30).
Proof.
  destruct (ok_transcript_is_final Sample.model_fails [Sample.e100] Sample.one_fetched
              Sample.done_100 Sample.disk_100 "100") as [Hmap _];
    [vm_compute; reflexivity|].
  rewrite Hmap. reflexivity.
Defined.

(** X3. Running a phase again on a finished worklist does nothing: when
    every item of the worklist is stored as fetched and its recorded file
    exists, the fetch phase ends in the state it started in (no call, no
    write); when every fetched item is stored as transcribed, so does the
    transform phase. *)
Theorem finished_phase_repeats_nothing :
  (∀ (ydl : fetcher) (entries : list entry) (progress : progress) (w : world),
     (∀ vid, vid ∈ fetch_order entries →
             spec_skip (files w) (default ∅ (pg_downloaded progress) !! vid) = true) →
     download_audio ydl entries progress w
     = Normal (start_of (pg_downloaded progress) progress w))
  ∧
  (∀ (model : transcriber) (entries : list entry)
     (downloaded : gmap string (gmap string jval)) (progress : progress) (w : world),
     (∀ vid, vid ∈ transform_order entries downloaded →
             has_status (default ∅ (pg_transcribed progress)) vid "ok" = true) →
     transcribe_audio model entries downloaded progress w
     = Normal (start_of (pg_transcribed progress) progress w)).
Proof.
  split.
  - intros ydl entries progress w. unfold download_audio, fetch_order, start_of.
    generalize (collect_unique_ids entries []). intros items Hall.
    induction items as [|[vid url] items IH]; [done|]. simpl.
    rewrite download_item_skipped.
    + apply IH. intros vid' Hin. apply Hall. simpl. by apply list_elem_of_further.
    + apply download_skip_spec. apply Hall. simpl. apply list_elem_of_here.
  - intros model entries downloaded progress w Hall.
    assert (Hloop : ∀ ids st,
              (∀ vid, vid ∈ ids → has_status (st_map st) vid "ok" = true) →
              transcribe_loop model downloaded ids st = Normal st).
    { induction ids as [|vid ids IH]; intros st Hids; [done|]. simpl.
      rewrite transcribe_item_skipped.
      - apply IH. intros vid' Hin. by apply Hids, list_elem_of_further.
      - apply Hids, list_elem_of_here. }
    unfold transcribe_audio. fold (transform_order entries downloaded).
    by rewrite Hloop.
Qed.

Lemma finished_phase_repeats_nothing_witness :
  download_audio Sample.ydl_fails [Sample.e100] Sample.done_100 Sample.disk_100
  = Normal (start_of (pg_downloaded Sample.done_100) Sample.done_100 Sample.disk_100).
Proof.
  apply (proj1 finished_phase_repeats_nothing).
  intros vid Hin. apply list_elem_of_singleton in Hin. rewrite Hin. vm_compute. reflexivity.
Defined.



(** X5. A phase that ends normally leaves none of its items without a
    state: after the fetch phase every ItemKey of the worklist is stored as
    ok or error, and after the transform phase so is every item the phase
    visited. *)
Theorem normal_run_settles_every_item :
  (∀ (ydl : fetcher) (entries : list entry) (progress : progress) (w : world) st',
     download_audio ydl entries progress w = Normal st' →
     ∀ vid, vid ∈ fetch_order entries → settled (st_map st') vid)
  ∧
  (∀ (model : transcriber) (entries : list entry)
     (downloaded : gmap string (gmap string jval)) (progress : progress) (w : world) st',
     transcribe_audio model entries downloaded progress w = Normal st' →
     ∀ vid, vid ∈ transform_order entries downloaded → settled (st_map st') vid).
Proof.
  split.
  - intros ydl entries progress w st' Hrun.
    eapply download_loop_settled; [apply NoDup_fetch_order | exact Hrun].
  - intros model entries downloaded progress w st' Hrun.
    apply transcribe_audio_Normal in Hrun.
    eapply transcribe_loop_settled; [apply NoDup_sorted | exact Hrun].
Qed.

Lemma normal_run_settles_every_item_witness :
  settled (st_map (final (download_audio Sample.ydl_poisoned Sample.entries empty_progress
                            Sample.no_files))) "200".
Proof.
  eapply (proj1 normal_run_settles_every_item Sample.ydl_poisoned Sample.entries
            empty_progress Sample.no_files).
  - vm_compute. reflexivity.
  - vm_compute. apply list_elem_of_here.
Defined.

(** X6. In a run of the fetch phase the fetch collaborator is called at
    most once per item, in the order in which the items are visited, the
    progress file is written once per call, and the transform collaborator
    is not called. *)
Theorem fetch_run_calls (ydl : fetcher) (entries : list entry) (progress : progress)
    (w : world) :
  ∃ evs,
    trace (st_world (final (download_audio ydl entries progress w))) = trace w ++ evs
    ∧ fetch_calls evs `sublist_of` fetch_order entries
    ∧ NoDup (fetch_calls evs)
    ∧ length (saves evs) = length (fetch_calls evs)
    ∧ transcribe_calls evs = [].
Proof.
  unfold download_audio.
  destruct (download_loop_trace ydl (collect_unique_ids entries [])
              (start_of (pg_downloaded progress) progress w))
    as (evs & Htr & Hsub & Hnone & Hlen).
  exists evs. split; [exact Htr|]. split; [exact Hsub|]. split; [|by split].
  eapply sublist_NoDup; [apply NoDup_fetch_order | exact Hsub].
Qed.

(** X7. In a run of the transform phase the transform collaborator is
    called at most once per item, in ascending order of the ids, the
    progress file is written once per call, and the fetch collaborator is
    not called. *)
Theorem transcribe_run_calls (model : transcriber) (entries : list entry)
    (downloaded : gmap string (gmap string jval)) (progress : progress) (w : world) :
  ∃ evs,
    trace (st_world (final (transcribe_audio model entries downloaded progress w)))
    = trace w ++ evs
    ∧ transcribe_calls evs `sublist_of` transform_order entries downloaded
    ∧ NoDup (transcribe_calls evs)
    ∧ StronglySorted String.le (transcribe_calls evs)
    ∧ length (saves evs) = length (transcribe_calls evs)
    ∧ fetch_calls evs = [].
Proof.
  rewrite transcribe_audio_final.
  destruct (transcribe_loop_trace model downloaded (transform_order entries downloaded)
              (start_of (pg_transcribed progress) progress w))
    as (evs & Htr & Hsub & Hnone & Hlen).
  exists evs. split; [exact Htr|]. split; [exact Hsub|].
  split; [|split; [|by split]].
  - eapply sublist_NoDup; [apply NoDup_sorted | exact Hsub].
  - eapply sublist_StronglySorted; [apply StronglySorted_sorted | exact Hsub].
Qed.

(** ** The audio files found under [--skip-download] *)

Section Scan.

Implicit Types (st : state) (vid f : string) (listing : list string).

Lemma scan_audio_world listing st : st_world (scan_audio listing st) = st_world st.
Proof.
  revert st. induction listing as [|f listing IH]; intros st; simpl; [done|].
  rewrite IH. destruct (ends_with ".mp3" f); [|done].
  by destruct (st_map st !! remove_all ".mp3" f).
Qed.

Lemma scan_audio_transcribed listing st :
  pg_transcribed (st_progress (scan_audio listing st)) = pg_transcribed (st_progress st).
Proof.
  revert st. induction listing as [|f listing IH]; intros st; simpl; [done|].
  rewrite IH. destruct (ends_with ".mp3" f); [|done].
  destruct (st_map st !! remove_all ".mp3" f); [done|]. simpl.
  by destruct (pg_downloaded (st_progress st)).
Qed.

Lemma scan_audio_keeps listing st vid r :
  st_map st !! vid = Some r → st_map (scan_audio listing st) !! vid = Some r.
Proof.
  revert st. induction listing as [|f listing IH]; intros st Hr; simpl; [done|].
  apply IH. destruct (ends_with ".mp3" f); [|done].
  destruct (st_map st !! remove_all ".mp3" f) eqn:Hf; [done|]. simpl.
  rewrite lookup_insert_ne; [done|]. intros Heq. rewrite Heq in Hf. congruence.
Qed.

Lemma scan_audio_new listing st vid r :
  st_map st !! vid = None →
  st_map (scan_audio listing st) !! vid = Some r →
  ∃ f, f ∈ listing ∧ ends_with ".mp3" f = true ∧ remove_all ".mp3" f = vid
       ∧ r = ok_download (os_path_join AUDIO_DIR f).
Proof.
  revert st. induction listing as [|f listing IH]; intros st Hnone Hr; simpl in Hr.
  - congruence.
  - destruct (ends_with ".mp3" f) eqn:Hmp3.
    + destruct (st_map st !! remove_all ".mp3" f) eqn:Hf.
      * destruct (IH st Hnone Hr) as (f' & Hin & Hrest).
        exists f'. split; [by apply list_elem_of_further | done].
      * destruct (decide (remove_all ".mp3" f = vid)) as [Heq | Hne].
        -- exists f. split; [apply list_elem_of_here|]. repeat split; [done..|].
           erewrite scan_audio_keeps in Hr; [by injection Hr|].
           simpl. by rewrite Heq, lookup_insert_eq.
        -- destruct (IH _ (eq_trans (lookup_insert_ne _ _ _ _ Hne) Hnone) Hr)
             as (f' & Hin & Hrest).
           exists f'. split; [by apply list_elem_of_further | done].
    + destruct (IH st Hnone Hr) as (f' & Hin & Hrest).
      exists f'. split; [by apply list_elem_of_further | done].
Qed.

Lemma scan_audio_registers listing st f :
  f ∈ listing → ends_with ".mp3" f = true →
  is_Some (st_map (scan_audio listing st) !! remove_all ".mp3" f).
Proof.
  revert st. induction listing as [|f' listing IH]; intros st Hin Hmp3.
  - by apply elem_of_nil in Hin.
  - apply elem_of_cons in Hin as [<- | Hin]; simpl; [|by apply IH].
    rewrite Hmp3. destruct (st_map st !! remove_all ".mp3" f) as [r|] eqn:Hf.
    + exists r. by apply scan_audio_keeps.
    + eexists. apply scan_audio_keeps. simpl. by rewrite lookup_insert_eq.
Qed.

End Scan.

(** X8. The scan of the audio directory under [--skip-download] registers
    every listed mp3 file whose id has no record, as fetched with the path
    of the file, and changes nothing else: a record already stored for an
    id, an error included, is kept as it is, and nothing is written to
    disk. *)
Theorem scan_audio_adds_only_new (listing : list string) (st : state) :
  st_world (scan_audio listing st) = st_world st
  ∧ (∀ vid r, st_map st !! vid = Some r → st_map (scan_audio listing st) !! vid = Some r)
  ∧ (∀ vid r, st_map st !! vid = None → st_map (scan_audio listing st) !! vid = Some r →
       ∃ f, f ∈ listing ∧ ends_with ".mp3" f = true ∧ remove_all ".mp3" f = vid
            ∧ r = ok_download (os_path_join AUDIO_DIR f))
  ∧ (∀ f, f ∈ listing → ends_with ".mp3" f = true →
       is_Some (st_map (scan_audio listing st) !! remove_all ".mp3" f)).
Proof.
  split; [apply scan_audio_world|].
  split; [intros vid r; apply scan_audio_keeps|].
  split; [intros vid r; apply scan_audio_new|].
  intros f. apply scan_audio_registers.
Qed.

(** A stored download error stays an error although the mp3 is listed. *)
Lemma scan_audio_adds_only_new_witness :
  st_map (scan_audio ["200.mp3"; "100.mp3"]
            (Sample.state0 Sample.fetch_timeout empty_progress Sample.no_files)) !! "200"
  = Some (error_record "timeout").
Proof.
  apply (proj1 (proj2 (scan_audio_adds_only_new ["200.mp3"; "100.mp3"]
                         (Sample.state0 Sample.fetch_timeout empty_progress
                            Sample.no_files)))).
  vm_compute. reflexivity.
Defined.

(** ** [main] *)

Section Main.

Variables (a : args) (h : host) (w : world).

(** The ways [main] can end. *)
Lemma main_ending :
  main a h w = Exit1 w
  ∨ (∃ e, main a h w = Crashed e w)
  ∨ ∃ progress ws,
      load_progress PROGRESS_FILE w = inr progress
      ∧ ((∃ e fetched, fetch_stage a h progress (read_excel (decimal h) ws) w = Raised e fetched
                       ∧ main a h w = Crashed e (st_world fetched))
         ∨ ∃ fetched, fetch_stage a h progress (read_excel (decimal h) ws) w = Normal fetched
             ∧ ((∃ e finished, transcribe_stage a h (read_excel (decimal h) ws) fetched = Raised e finished
                               ∧ main a h w = Crashed e (st_world finished))
                ∨ ∃ finished, transcribe_stage a h (read_excel (decimal h) ws) fetched = Normal finished
                    ∧ ((∃ e, export_rows (read_excel (decimal h) ws) (st_map finished) (st_map fetched)
                             = inl e
                             ∧ main a h w = Crashed e (st_world finished))
                       ∨ ∃ report csv,
                           export_rows (read_excel (decimal h) ws) (st_map finished) (st_map fetched)
                           = inr report
                           ∧ main a h w
                             = Finished report csv
                                 (with_world (write_results (st_world finished))
                                    finished)))).
Proof.
  unfold main, fetch_stage, transcribe_stage, start_of.
  destruct (negb _ || negb _); [by left|]. right.
  destruct (load_progress PROGRESS_FILE w) as [e|progress]; [left; by exists e|].
  destruct (workbook h _) as [e|ws]; [left; by exists e|].
  right. exists progress, ws. split; [done|].
  destruct (if skip_download a then _ else _) as [fetched|e fetched];
    [right; exists fetched; split; [done|] | left; by exists e, fetched].
  destruct (if skip_transcribe a then _ else _) as [finished|e finished];
    [right; exists finished; split; [done|] | left; by exists e, finished].
  destruct (export_rows _ _ _) as [e|report]; [left; by exists e|].
  right. by eexists _, _.
Qed.

Lemma fetch_stage_trace progress entries :
  ∃ evs, trace (st_world (final (fetch_stage a h progress entries w))) = trace w ++ evs
    ∧ transcribe_calls evs = []
    ∧ (skip_download a = true →
       evs = [] ∧ files (st_world (final (fetch_stage a h progress entries w))) = files w).
Proof.
  unfold fetch_stage. destruct (skip_download a); simpl.
  - exists []. rewrite scan_audio_world. simpl. by rewrite app_nil_r.
  - unfold download_audio.
    destruct (download_loop_trace (ydl h) (collect_unique_ids entries [])
                (start_of (pg_downloaded progress) progress w))
      as (evs & Htr & _ & Hnone & _).
    exists evs. by repeat split.
Qed.

Lemma transcribe_stage_trace entries fetched :
  ∃ evs, trace (st_world (final (transcribe_stage a h entries fetched)))
         = trace (st_world fetched) ++ evs
    ∧ fetch_calls evs = []
    ∧ (skip_transcribe a = true →
       evs = [] ∧ files (st_world (final (transcribe_stage a h entries fetched)))
                  = files (st_world fetched)).
Proof.
  unfold transcribe_stage. destruct (skip_transcribe a); simpl.
  - exists []. by rewrite app_nil_r.
  - rewrite transcribe_audio_final.
    destruct (transcribe_loop_trace (whisper h (model a)) (st_map fetched)
                (transform_order entries (st_map fetched))
                (start_of (pg_transcribed (st_progress fetched)) (st_progress fetched) (st_world fetched)))
      as (evs & Htr & _ & Hnone & _).
    exists evs. by repeat split.
Qed.

(** What [main] appends to the trace: the events of the fetch stage, then
    those of the transcription stage. *)
Lemma main_trace :
  ∃ evs1 evs2,
    trace (ending_world (main a h w)) = trace w ++ evs1 ++ evs2
    ∧ transcribe_calls evs1 = []
    ∧ fetch_calls evs2 = []
    ∧ (skip_download a = true → evs1 = [])
    ∧ (skip_transcribe a = true → evs2 = [])
    ∧ (skip_download a = true → skip_transcribe a = true →
       files (ending_world (main a h w)) !! PROGRESS_FILE = files w !! PROGRESS_FILE).
Proof.
  destruct main_ending as [-> | [[e ->] | (progress & ws & Hload & Hrest)]].
  - exists [], []. simpl. by rewrite app_nil_r.
  - exists [], []. simpl. by rewrite app_nil_r.
  - destruct (fetch_stage_trace progress (read_excel (decimal h) ws)) as (evs1 & Htr1 & Hnone1 & Hskip1).
    destruct Hrest as [(e & fetched & Hfetch & ->) | (fetched & Hfetch & Hrest)];
      rewrite Hfetch in Htr1, Hskip1; simpl in Htr1, Hskip1.
    { exists evs1, []. simpl. rewrite app_nil_r. repeat split; try done.
      - intros Hs. by apply Hskip1.
      - intros Hs _. destruct (Hskip1 Hs) as [_ ->]. done. }
    destruct (transcribe_stage_trace (read_excel (decimal h) ws) fetched) as (evs2 & Htr2 & Hnone2 & Hskip2).
    assert (Hfiles : skip_download a = true → skip_transcribe a = true →
              ∀ finished, final (transcribe_stage a h (read_excel (decimal h) ws) fetched) = finished →
              files (st_world finished) = files w).
    { intros Hs1 Hs2 finished <-. destruct (Hskip2 Hs2) as [_ ->]. by apply Hskip1. }
    destruct Hrest as [(e & finished & Htrans & ->)
                      | (finished & Htrans & [(e & Hexp & ->) | (report & csv & Hexp & ->)])];
      rewrite Htrans in Htr2, Hskip2, Hfiles; simpl in Htr2, Hskip2, Hfiles;
      exists evs1, evs2; simpl; rewrite Htr2, Htr1, <- app_assoc;
      (split; [done|]); (split; [done|]); (split; [done|]);
      (split; [intros Hs; by apply Hskip1|]); (split; [intros Hs; by apply Hskip2|]);
      intros Hs1 Hs2; try (by rewrite (Hfiles Hs1 Hs2 finished eq_refl)).
    rewrite !lookup_insert_ne by done. by rewrite (Hfiles Hs1 Hs2 finished eq_refl).
Qed.

End Main.

(** X9. A phase switched off on the command line is not run: under
    [--skip-download] [main] never calls the fetch collaborator, under
    [--skip-transcribe] it never calls the transform collaborator, and with
    both it calls nothing and leaves the progress file as it found it,
    however it ends. *)
Theorem skipped_phase_is_not_run (a : args) (h : host) (w : world) :
  (skip_download a = true →
   ∀ vid url, EvFetch vid url ∈ trace (ending_world (main a h w)) → EvFetch vid url ∈ trace w)
  ∧ (skip_transcribe a = true →
     ∀ vid p, EvTranscribe vid p ∈ trace (ending_world (main a h w))
              → EvTranscribe vid p ∈ trace w)
  ∧ (skip_download a = true → skip_transcribe a = true →
     trace (ending_world (main a h w)) = trace w
     ∧ files (ending_world (main a h w)) !! PROGRESS_FILE = files w !! PROGRESS_FILE).
Proof.
  destruct (main_trace a h w) as (evs1 & evs2 & Htr & Hnone1 & Hnone2 & Hs1 & Hs2 & Hfile).
  split; [|split].
  - intros Hskip vid url. rewrite Htr, (Hs1 Hskip). simpl.
    rewrite elem_of_app. intros [Hin | Hin]; [done|].
    apply fetch_call_listed in Hin. rewrite Hnone2 in Hin. by apply elem_of_nil in Hin.
  - intros Hskip vid p. rewrite Htr, (Hs2 Hskip), app_nil_r.
    rewrite elem_of_app. intros [Hin | Hin]; [done|].
    apply transcribe_call_listed in Hin. rewrite Hnone1 in Hin. by apply elem_of_nil in Hin.
  - intros Hskip1 Hskip2. split; [|by apply Hfile].
    by rewrite Htr, (Hs1 Hskip1), (Hs2 Hskip2), !app_nil_r.
Qed.

Lemma skipped_phase_is_not_run_witness :
  trace (ending_world (main SampleMain.report_only SampleMain.machine SampleMain.disk)) = [].
Proof.
  apply (proj2 (proj2 (skipped_phase_is_not_run SampleMain.report_only SampleMain.machine
                         SampleMain.disk))); reflexivity.
Defined.

Lemma export_rows_inv (entries : list entry)
    (transcribed downloaded : gmap string (gmap string jval)) (rows : list report_row) :
  export_rows entries transcribed downloaded = inr rows →
  map rr_entry rows = entries
  ∧ ∀ rr, rr ∈ rows →
      row_status (rr_entry rr) transcribed downloaded = inr (rr_verdict rr)
      ∧ rr_vimeo_id rr = default "" (vimeo_id (rr_entry rr)).
Proof.
  revert rows. induction entries as [|e entries IH]; intros rows Hexp; simpl in Hexp.
  - injection Hexp as <-. split; [done|]. intros rr Hin. by apply elem_of_nil in Hin.
  - destruct (row_status e transcribed downloaded) as [ex|v] eqn:Hv; [done|].
    destruct (export_rows entries transcribed downloaded) as [ex|rows'] eqn:Hrows; [done|].
    injection Hexp as <-. destruct (IH rows' eq_refl) as [Hmap Hall].
    split; [simpl; by rewrite Hmap|].
    intros rr Hin. apply elem_of_cons in Hin as [-> | Hin]; [by simpl | by apply Hall].
Qed.

Lemma row_status_not_processed (e : entry)
    (transcribed downloaded : gmap string (gmap string jval)) (v : verdict) :
  row_status e transcribed downloaded = inr v →
  v_status v = "nicht_verarbeitet" →
  ∃ vid, item_key e = Some vid
         ∧ has_status transcribed vid "ok" = false
         ∧ has_status downloaded vid "error" = false
         ∧ has_status transcribed vid "error" = false.
Proof.
  unfold row_status, item_key.
  destruct (vimeo_id e) as [vid|]; simpl; [|by intros [= <-]].
  destruct (nonempty vid); simpl; [|by intros [= <-]].
  destruct (has_status transcribed vid "ok") eqn:Htok.
  { destruct (default ∅ (transcribed !! vid) !! "text"); [by intros [= <-] | done]. }
  destruct (has_status downloaded vid "error") eqn:Hferr; [by intros [= <-]|].
  destruct (has_status transcribed vid "error") eqn:Hterr; [by intros [= <-]|].
  intros _ _. by exists vid.
Qed.

Lemma item_key_listed (e : entry) (entries : list entry) (vid : string) :
  e ∈ entries → item_key e = Some vid → vid ∈ item_keys entries.
Proof. intros Hin Hkey. apply list_elem_of_omap. by exists e. Qed.

(** X10. When [main] runs both phases and finishes, no line of the report
    is left "nicht_verarbeitet": every row reference with an ItemKey is
    reported ok, download_fehlgeschlagen or transkription_fehlgeschlagen.
    That status can only come from a skipped phase. *)
Theorem full_run_processes_every_row (a : args) (h : host) (w : world)
    (report : list report_row) (csv : string) (st : state) :
  skip_download a = false →
  skip_transcribe a = false →
  main a h w = Finished report csv st →
  ∀ rr, rr ∈ report → v_status (rr_verdict rr) ≠ "nicht_verarbeitet".
Proof.
  intros Hs1 Hs2 Hmain rr Hin Hstatus.
  destruct (main_ending a h w)
    as [Hend | [[e Hend] | (progress & ws & _ & Hrest)]]; [congruence..|].
  destruct Hrest as [(e & fetched & _ & Hend) | (fetched & Hfetch & Hrest)]; [congruence|].
  destruct Hrest as [(e & finished & _ & Hend) | (finished & Htrans & Hrest)]; [congruence|].
  destruct Hrest as [(e & _ & Hend) | (report' & csv' & Hexp & Hend)]; [congruence|].
  rewrite Hend in Hmain. injection Hmain as <- _ _.
  unfold fetch_stage in Hfetch. rewrite Hs1 in Hfetch.
  unfold transcribe_stage in Htrans. rewrite Hs2 in Htrans.
  apply transcribe_audio_Normal in Htrans.
  destruct (export_rows_inv _ _ _ _ Hexp) as [Hmap Hall].
  destruct (Hall rr Hin) as [Hrow _].
  destruct (row_status_not_processed _ _ _ _ Hrow Hstatus) as (vid & Hkey & Htok & Hferr & Hterr).
  assert (Hlisted : vid ∈ item_keys (read_excel (decimal h) ws)).
  { eapply item_key_listed; [|exact Hkey]. rewrite <- Hmap. by apply list_elem_of_fmap_2. }
  assert (Hfok : has_status (st_map fetched) vid "ok" = true).
  { destruct (download_loop_settled _ _ _ _ (NoDup_fetch_order _) Hfetch vid) as [?|?];
      [|done|congruence].
    fold (fetch_order (read_excel (decimal h) ws)).
    by rewrite fetch_order_first_seen, elem_of_first_seen. }
  destruct (transcribe_loop_settled _ _ _ _ _ (NoDup_sorted _) Htrans vid) as [?|?];
    [|congruence..].
  by apply elem_of_transform_order.
Qed.

Lemma full_run_processes_every_row_witness :
  match main SampleMain.full_run SampleMain.machine SampleMain.disk with
  | Finished report _ _ =>
      Forall (λ rr, v_status (rr_verdict rr) ≠ "nicht_verarbeitet") report
  | _ => False
  end.
Proof.
  destruct (main SampleMain.full_run SampleMain.machine SampleMain.disk)
    as [w'|e w'|report csv st] eqn:Hmain; [vm_compute in Hmain; discriminate Hmain..|].
  apply Forall_forall. intros rr Hin.
  by apply (full_run_processes_every_row SampleMain.full_run SampleMain.machine
              SampleMain.disk report csv st).
Defined.

(** ** The report *)

Lemma row_status_raises (e : entry)
    (transcribed downloaded : gmap string (gmap string jval)) (ex : exn) :
  row_status e transcribed downloaded = inl ex →
  ex = KeyError "text"
  ∧ ∃ vid r, item_key e = Some vid ∧ transcribed !! vid = Some r
             ∧ status_is r "ok" = true ∧ r !! "text" = None.
Proof.
  unfold row_status, item_key.
  destruct (vimeo_id e) as [vid|]; simpl; [|done].
  destruct (nonempty vid); simpl; [|done].
  unfold has_status at 1.
  destruct (transcribed !! vid) as [r|] eqn:Hr; simpl.
  - destruct (status_is r "ok") eqn:Hok.
    + destruct (r !! "text") eqn:Htext; [done|]. intros [= <-]. split; [done|].
      by exists vid, r.
    + destruct (has_status downloaded vid "error"); [done|].
      by destruct (has_status _ vid "error").
  - destruct (has_status downloaded vid "error"); [done|].
    by destruct (has_status _ vid "error").
Qed.

(** X11. The report has exactly one line per entry, in the order of the
    entries, each with the verdict of its entry; the export can only fail
    with [KeyError "text"], on an entry whose stored transcript says ok but
    carries no text, and never fails on records the script wrote. *)
Theorem report_has_one_line_per_entry (entries : list entry)
    (transcribed downloaded : gmap string (gmap string jval)) :
  (∀ rows, export_rows entries transcribed downloaded = inr rows →
     map rr_entry rows = entries
     ∧ ∀ rr, rr ∈ rows →
         row_status (rr_entry rr) transcribed downloaded = inr (rr_verdict rr)
         ∧ rr_vimeo_id rr = default "" (vimeo_id (rr_entry rr)))
  ∧ (∀ ex, export_rows entries transcribed downloaded = inl ex →
       ex = KeyError "text"
       ∧ ∃ e vid r, e ∈ entries ∧ item_key e = Some vid ∧ transcribed !! vid = Some r
                    ∧ status_is r "ok" = true ∧ r !! "text" = None)
  ∧ (wf_transcribed transcribed →
     ∃ rows, export_rows entries transcribed downloaded = inr rows).
Proof.
  split; [intros rows; apply export_rows_inv|]. split; [|apply export_rows_total].
  induction entries as [|e entries IH]; intros ex Hexp; simpl in Hexp; [done|].
  destruct (row_status e transcribed downloaded) as [ex'|v] eqn:Hv.
  - injection Hexp as ->.
    destruct (row_status_raises _ _ _ _ Hv) as (-> & vid & r & Hrest).
    split; [done|]. exists e, vid, r. split; [apply list_elem_of_here | done].
  - destruct (export_rows entries transcribed downloaded) as [ex'|rows]; [|done].
    injection Hexp as ->. destruct (IH ex eq_refl) as (-> & e' & vid & r & Hin & Hrest).
    split; [done|]. exists e', vid, r. split; [by apply list_elem_of_further | done].
Qed.

Lemma report_has_one_line_per_entry_witness :
  ∃ rows, export_rows Sample.entries Sample.one_transcribed Sample.fetch_timeout = inr rows
          ∧ map rr_entry rows = Sample.entries.
Proof.
  destruct (proj2 (proj2 (report_has_one_line_per_entry Sample.entries
                            Sample.one_transcribed Sample.fetch_timeout)))
    as [rows Hrows].
  - intros vid r Hr Hok. unfold Sample.one_transcribed in Hr.
    apply lookup_singleton_Some in Hr as [_ <-]. by eexists.
  - exists rows. split; [exact Hrows|].
    by apply (proj1 (report_has_one_line_per_entry Sample.entries Sample.one_transcribed
                       Sample.fetch_timeout)).
Defined.

Section Csv.

Local Open Scope string_scope.

Implicit Types (v cur rest more : string) (c : ascii).

Lemma csv_read_unquoted v cur rest :
  has_char semicolon v = false →
  at_boundary rest →
  csv_read Unquoted cur (v ++ rest) = (cur ++ v) :: after_field rest.
Proof.
  revert cur. induction v as [|c v IH]; intros cur Hsemi Hrest.
  - rewrite str_app_nil_r. destruct Hrest as [-> | [more ->]]; done.
  - simpl in Hsemi. apply orb_false_iff in Hsemi as [Hc Hv].
    rewrite str_app_cons. cbn [csv_read]. rewrite Hc, IH by done.
    by rewrite str_app_assoc.
Qed.

Lemma csv_read_quoted v cur rest :
  at_boundary rest →
  csv_read Quoted cur (double_quotes v ++ String dquote rest) = (cur ++ v) :: after_field rest.
Proof.
  revert cur. induction v as [|c v IH]; intros cur Hrest.
  - rewrite str_app_nil_r. cbn [double_quotes]. change ("" ++ String dquote rest)
      with (String dquote rest). cbn [csv_read]. rewrite Ascii.eqb_refl.
    destruct Hrest as [-> | [more ->]]; done.
  - cbn [double_quotes]. destruct (Ascii.eqb c dquote) eqn:Hc.
    + apply Ascii.eqb_eq in Hc as ->. rewrite !str_app_cons. cbn [csv_read].
      rewrite !Ascii.eqb_refl, IH by done. by rewrite str_app_assoc.
    + rewrite str_app_cons. cbn [csv_read]. rewrite Hc, IH by done.
      by rewrite str_app_assoc.
Qed.

Lemma csv_read_field v rest :
  at_boundary rest →
  csv_read FieldStart "" (csv_field v ++ rest) = v :: after_field rest.
Proof.
  intros Hrest. unfold csv_field.
  destruct (has_char semicolon v || has_char dquote v || has_char newline v) eqn:Hq.
  - rewrite str_app_cons. cbn [csv_read]. rewrite Ascii.eqb_refl.
    rewrite str_app_assoc, str_app_cons. by rewrite csv_read_quoted.
  - apply orb_false_iff in Hq as [Hq _]. apply orb_false_iff in Hq as [Hsemi Hquote].
    destruct v as [|c v].
    + destruct Hrest as [-> | [more ->]]; done.
    + simpl in Hsemi, Hquote.
      apply orb_false_iff in Hsemi as [Hc1 Hsemi]. apply orb_false_iff in Hquote as [Hc2 _].
      rewrite str_app_cons. cbn [csv_read]. rewrite Hc1, Hc2.
      by rewrite csv_read_unquoted.
Qed.

Lemma csv_line_cons v (values : list string) :
  values ≠ [] →
  csv_line (v :: values) = csv_field v ++ String semicolon (csv_line values).
Proof. destruct values; [done|]. reflexivity. Qed.

Lemma csv_fields_line (values : list string) :
  values ≠ [] → csv_fields (csv_line values) = values.
Proof.
  induction values as [|v values IH]; [done|]. intros _.
  destruct values as [|v' values].
  - unfold csv_fields, csv_line. simpl.
    rewrite <- (str_app_nil_r (csv_field v)). rewrite csv_read_field; [done | by left].
  - rewrite csv_line_cons by done. unfold csv_fields.
    rewrite csv_read_field by (right; by eexists). simpl.
    f_equal. by apply IH.
Qed.

End Csv.

(** X12. The rendering of a csv line loses nothing: reading the line back
    (fields end at a semicolon outside quotes, a doubled quote inside a
    quoted field is one quote) gives the values it was made from, so two
    different non-empty lists of values never give the same line. *)
Theorem csv_line_reads_back :
  (∀ values : list string, values ≠ [] → csv_fields (csv_line values) = values)
  ∧ (∀ values1 values2 : list string,
       values1 ≠ [] → values2 ≠ [] → csv_line values1 = csv_line values2 →
       values1 = values2)
  ∧ (∀ rr : report_row,
       csv_fields (csv_line (row_values rr)) = row_values rr
       ∧ length (row_values rr) = length headers).
Proof.
  split; [exact csv_fields_line|]. split.
  - intros values1 values2 H1 H2 Heq.
    rewrite <- (csv_fields_line values1 H1), <- (csv_fields_line values2 H2). by rewrite Heq.
  - intros rr. split; [by apply csv_fields_line | reflexivity].
Qed.

Lemma csv_line_reads_back_witness :
  csv_fields (csv_line ["Beinachse; links"; String dquote "Knie"; ""])
  = ["Beinachse; links"; String dquote "Knie"; ""].
Proof. apply (proj1 csv_line_reads_back). discriminate. Defined.

(** ** The registry: identifiers and cleaned URLs *)

(** X13. An identifier extracted from a URL is the run of characters of
    the class [\d] that stands in the URL right after "vimeo.com/": it is
    not empty, it is taken as long as the characters of the class go, and
    it is read at the first place of the URL where "vimeo.com/" is followed
    by such a character. *)
Theorem extract_vimeo_id_sound (decimal : N → bool) (url d : string) :
  extract_vimeo_id decimal url = Some d →
  ∃ pre rest ds ps,
    url = pre +:+ "vimeo.com/" +:+ rest
    ∧ Str.chars rest = ds ++ ps
    ∧ d = Str.concat ds ∧ ds ≠ []
    ∧ all_of decimal ds ∧ none_ahead decimal ps
    ∧ ∀ a b, pre = a +:+ b → b ≠ "" →
             match_here decimal (b +:+ "vimeo.com/" +:+ rest) = None.
Proof. apply extract_Some. Qed.

(** The identifier of a link whose digits go on in Arabic-Indic script. *)
Lemma extract_vimeo_id_sound_witness :
  ∃ pre rest ds ps,
    "https://vimeo.com/12٣/x" = pre +:+ "vimeo.com/" +:+ rest
    ∧ Str.chars rest = ds ++ ps
    ∧ "12٣" = Str.concat ds ∧ ds ≠ []
    ∧ all_of Sample.decimal ds ∧ none_ahead Sample.decimal ps
    ∧ ∀ a b, pre = a +:+ b → b ≠ "" →
             match_here Sample.decimal (b +:+ "vimeo.com/" +:+ rest) = None.
Proof.
  apply (extract_vimeo_id_sound Sample.decimal "https://vimeo.com/12٣/x" "12٣").
  vm_compute. reflexivity.
Defined.

(** X14. No identifier is extracted exactly when the URL has no place
    where "vimeo.com/" is followed by a character of the class [\d]. *)
Theorem extract_vimeo_id_none (decimal : N → bool) (url : string) :
  extract_vimeo_id decimal url = None
  ↔ ∀ pre rest, url = pre +:+ "vimeo.com/" +:+ rest → none_ahead decimal (Str.chars rest).
Proof. apply extract_none_iff. Qed.

(** X15. The cleaned URL is the text of the cell before its first "?",
    without the blanks at its two ends: it has no "?", it neither starts
    nor ends with a blank character, what was removed around it are blank
    characters and the part from the first "?" on, cleaning a cleaned URL
    gives it back, and an empty cell gives the empty string. *)
Theorem clean_vimeo_url_canonical (video : cell) :
  has_char "?" (clean_vimeo_url video) = false
  ∧ none_ahead Str.is_space (Str.chars (clean_vimeo_url video))
  ∧ none_at_end Str.is_space (Str.chars (clean_vimeo_url video))
  ∧ clean_vimeo_url (CStr (clean_vimeo_url video)) = clean_vimeo_url video
  ∧ (truthy video = false → clean_vimeo_url video = "")
  ∧ (truthy video = true →
     ∃ a b q, str video = a +:+ clean_vimeo_url video +:+ b +:+ q
              ∧ all_of Str.is_space (Str.chars a) ∧ all_of Str.is_space (Str.chars b)
              ∧ (q = "" ∨ ∃ q', q = String "?" q')).
Proof.
  split; [apply clean_without_query|].
  split; [|split; [|split; [apply clean_idem|split]]].
  - unfold clean_vimeo_url. destruct (truthy video); simpl; [|done].
    intros ch. apply strip_head.
  - unfold clean_vimeo_url. destruct (truthy video); simpl; [|done].
    intros ch. apply strip_last.
  - intros Hfalse. unfold clean_vimeo_url. by rewrite Hfalse.
  - intros Htrue. destruct (clean_split video Htrue) as (a & b & q & Hs & Ha & Hb & _ & Hq).
    by exists a, b, q.
Qed.

Section Entries.

Variable decimal : N → bool.

Implicit Types (e : entry) (sr : sheet_row) (ws : list sheet_row) (r i : nat).

Lemma elem_of_row_entries r sr e :
  e ∈ row_entries decimal r sr
  ↔ ∃ typ video, slot_of sr typ video ∧ is_vimeo_link video = true
                 ∧ e = link_entry decimal r sr typ video.
Proof.
  unfold row_entries, slot_of. rewrite elem_of_app. split.
  - intros [Hin | Hin].
    + destruct (is_vimeo_link (c_video_kurz sr)) eqn:Hk; [|by apply elem_of_nil in Hin].
      apply list_elem_of_singleton in Hin. exists "kurz", (c_video_kurz sr). auto.
    + destruct (is_vimeo_link (c_video_lang sr)) eqn:Hl; [|by apply elem_of_nil in Hin].
      apply list_elem_of_singleton in Hin. exists "lang", (c_video_lang sr). auto.
  - intros (typ & video & [[-> ->] | [-> ->]] & Hlink & ->); rewrite Hlink.
    + left. apply list_elem_of_here.
    + right. apply list_elem_of_here.
Qed.

Lemma elem_of_read_rows r ws e :
  e ∈ read_rows decimal r ws ↔ ∃ i sr, ws !! i = Some sr ∧ e ∈ row_entries decimal (r + i) sr.
Proof.
  revert r. induction ws as [|sr ws IH]; intros r; simpl.
  - rewrite elem_of_nil. split; [done|]. by intros (i & sr & Hi & _).
  - rewrite elem_of_app, IH. split.
    + intros [Hin | (i & sr' & Hi & Hin)].
      * exists 0, sr. by rewrite Nat.add_0_r.
      * exists (S i), sr'. split; [done|]. by rewrite Nat.add_succ_r.
    + intros ([|i] & sr' & Hi & Hin); simpl in Hi.
      * injection Hi as <-. left. by rewrite Nat.add_0_r in Hin.
      * right. exists i, sr'. split; [done|]. by rewrite Nat.add_succ_r in Hin.
Qed.

Lemma elem_of_read_excel ws e :
  e ∈ read_excel decimal ws
  ↔ ∃ i sr typ video, ws !! i = Some sr ∧ slot_of sr typ video
                      ∧ is_vimeo_link video = true
                      ∧ e = link_entry decimal (2 + i) sr typ video.
Proof.
  unfold read_excel. rewrite elem_of_read_rows. split.
  - intros (i & sr & Hi & Hin). apply elem_of_row_entries in Hin as (typ & video & Hrest).
    by exists i, sr, typ, video.
  - intros (i & sr & typ & video & Hi & Hrest). exists i, sr. split; [done|].
    apply elem_of_row_entries. by exists typ, video.
Qed.

(** The entries of the rows from number [r] on carry the numbers of those
    rows. *)
Lemma read_rows_row r ws e : e ∈ read_rows decimal r ws → r ≤ row e < r + length ws.
Proof.
  intros Hin. apply elem_of_read_rows in Hin as (i & sr & Hi & Hin).
  apply elem_of_row_entries in Hin as (typ & video & _ & _ & ->).
  apply lookup_lt_Some in Hi. simpl. lia.
Qed.

End Entries.

(** X16. [read_excel] works row by row: the entries of a sheet are those
    of the rows above a row, then the entries of that row, then those of
    the rows below, in the order of the row numbers. A row gives at most
    two entries, first the one of its short link ("kurz"), then the one of
    its long link ("lang"), each exactly when the text of the cell contains
    "vimeo" in any letter case; the entry carries the number of the row,
    its columns, the stripped text of the cell, the cleaned URL and the
    identifier extracted from the cleaned URL, whether there is one or
    not. *)
Theorem read_excel_entries (decimal : N → bool) (rows1 rows2 : list sheet_row)
    (sr : sheet_row) :
  let slot (typ : string) (video : cell) : list entry :=
    if truthy video && Str.contains "vimeo" (Str.lower (str video))
    then [ {| row := 2 + length rows1;
              order := c_order sr;
              modul := if truthy (c_modul sr) then str (c_modul sr) else "";
              bereich := if truthy (c_bereich sr) then str (c_bereich sr) else "";
              kategorie := if truthy (c_kategorie sr) then str (c_kategorie sr) else "";
              uebung := if truthy (c_uebung sr) then str (c_uebung sr) else "";
              link_typ := typ;
              url := Str.strip (str video);
              url_clean := clean_vimeo_url video;
              vimeo_id := extract_vimeo_id decimal (clean_vimeo_url video) |} ]
    else [] in
  read_excel decimal [] = []
  ∧ ∃ after,
      read_excel decimal (rows1 ++ sr :: rows2)
      = read_excel decimal rows1
        ++ slot "kurz" (c_video_kurz sr) ++ slot "lang" (c_video_lang sr) ++ after
      ∧ (∀ e, e ∈ read_excel decimal rows1 → 2 ≤ row e < 2 + length rows1)
      ∧ (∀ e, e ∈ after → 2 + length rows1 < row e ≤ 2 + length rows1 + length rows2).
Proof.
  intros slot. split; [done|].
  exists (read_rows decimal (S (2 + length rows1)) rows2). split; [|split].
  - unfold read_excel. rewrite read_rows_app. cbn [read_rows]. unfold row_entries.
    by rewrite <- app_assoc.
  - intros e He. by apply read_rows_row in He.
  - intros e He. apply read_rows_row in He. lia.
Qed.

(** X17. Every entry of [read_excel] is well formed: its row number is
    that of a data row, its link kind is "kurz" or "lang", its URL and its
    cleaned URL neither start nor end with a blank character, its cleaned
    URL has no query part, and its identifier, when there is one, is a
    non-empty run of characters of the class [\d] that stands in the
    cleaned URL right after "vimeo.com/"; the empty string never occurs as
    identifier. *)
Theorem read_excel_entry_invariant (decimal : N → bool) (ws : list sheet_row) (e : entry) :
  e ∈ read_excel decimal ws →
  2 ≤ row e < 2 + length ws
  ∧ (link_typ e = "kurz" ∨ link_typ e = "lang")
  ∧ has_char "?" (url_clean e) = false
  ∧ none_ahead Str.is_space (Str.chars (url_clean e))
  ∧ none_at_end Str.is_space (Str.chars (url_clean e))
  ∧ none_ahead Str.is_space (Str.chars (url e))
  ∧ none_at_end Str.is_space (Str.chars (url e))
  ∧ (∀ vid, vimeo_id e = Some vid →
       vid ≠ "" ∧ Str.chars vid ≠ [] ∧ all_of decimal (Str.chars vid)
       ∧ ∃ pre post, url_clean e = pre +:+ "vimeo.com/" +:+ vid +:+ post)
  ∧ item_key e = vimeo_id e.
Proof.
  intros Hin.
  apply elem_of_read_excel in Hin as (i & sr & typ & video & Hi & Hslot & Hlink & ->).
  apply lookup_lt_Some in Hi. simpl.
  assert (Htruthy : truthy video = true).
  { unfold is_vimeo_link in Hlink. by apply andb_true_iff in Hlink as [? _]. }
  assert (Hclean : clean_vimeo_url video = Str.strip (Str.before "?" (str video))).
  { unfold clean_vimeo_url. by rewrite Htruthy. }
  assert (Hid : ∀ vid, extract_vimeo_id decimal (clean_vimeo_url video) = Some vid →
            vid ≠ "" ∧ Str.chars vid ≠ [] ∧ all_of decimal (Str.chars vid)
            ∧ ∃ pre post, clean_vimeo_url video = pre +:+ "vimeo.com/" +:+ vid +:+ post).
  { intros vid Hvid.
    destruct (extract_Some decimal _ _ Hvid)
      as (pre & rest & ds & ps & Hurl & Hrest & -> & Hne & Hds & _).
    pose proof (chars_of_run rest ds ps Hrest) as Hchars.
    rewrite Hchars. split; [|split; [done|split; [done|]]].
    - intros Hempty. by rewrite Hempty in Hchars.
    - exists pre, (Str.concat ps).
      by rewrite Hurl, <- concat_app, <- Hrest, concat_chars. }
  split; [lia|]. split; [destruct Hslot as [[-> _] | [-> _]]; auto|].
  split; [apply clean_without_query|].
  rewrite Hclean at 1 2.
  split; [intros ch; apply strip_head|]. split; [intros ch; apply strip_last|].
  split; [intros ch; apply strip_head|]. split; [intros ch; apply strip_last|].
  split; [exact Hid|].
  unfold item_key. simpl.
  destruct (extract_vimeo_id decimal (clean_vimeo_url video)) as [vid|] eqn:Hvid; [|done].
  destruct (Hid vid eq_refl) as [Hne _]. unfold nonempty.
  by destruct (String.eqb_spec vid "").
Qed.

Lemma read_excel_entry_invariant_witness :
  {| row := 3; order := CInt 2; modul := "5"; bereich := "A"; kategorie := "";
     uebung := "Zwei"; link_typ := "kurz"; url := "https://vimeo.com/200";
     url_clean := "https://vimeo.com/200"; vimeo_id := Some "200" |}
    ∈ read_excel Sample.decimal Sample.worklist
  ∧ has_char "?" "https://vimeo.com/200" = false.
Proof.
  assert (Hin : {| row := 3; order := CInt 2; modul := "5"; bereich := "A"; kategorie := "";
                   uebung := "Zwei"; link_typ := "kurz"; url := "https://vimeo.com/200";
                   url_clean := "https://vimeo.com/200"; vimeo_id := Some "200" |}
                ∈ read_excel Sample.decimal Sample.worklist).
  { vm_compute. do 2 apply list_elem_of_further. apply list_elem_of_here. }
  split; [exact Hin|].
  exact (proj1 (proj2 (proj2 (read_excel_entry_invariant Sample.decimal Sample.worklist _
                                Hin)))).
Defined.

Lemma collect_unique_ids_first (entries : list entry) (acc : list (string * string))
    (vid u : string) :
  (vid, u) ∈ collect_unique_ids entries acc →
  (vid, u) ∈ acc
  ∨ ((vid ∉ acc.*1)
     ∧ ∃ before e after, entries = before ++ e :: after ∧ item_key e = Some vid
                         ∧ u = url_clean e ∧ vid ∉ item_keys before).
Proof.
  revert acc. induction entries as [|e0 entries IH]; intros acc; [by left|].
  cbn [collect_unique_ids]. intros Hin. apply IH in Hin.
  assert (Hlater : ∀ v, (item_key e0 = None ∨ item_key e0 = Some v ∧ vid ≠ v) →
            (∃ before e after, entries = before ++ e :: after ∧ item_key e = Some vid
                               ∧ u = url_clean e ∧ vid ∉ item_keys before) →
            ∃ before e after, e0 :: entries = before ++ e :: after ∧ item_key e = Some vid
                              ∧ u = url_clean e ∧ vid ∉ item_keys before).
  { intros v Hkey (before & e & after & -> & He & Hu & Hnot).
    exists (e0 :: before), e, after. repeat split; [done..|].
    rewrite item_keys_cons. destruct Hkey as [-> | [-> Hne]]; [done|].
    by apply not_elem_of_cons. }
  unfold item_key in Hlater. unfold item_key at 1.
  destruct (vimeo_id e0) as [v|] eqn:Hv0;
    [|destruct Hin as [?|[Hnot Hex]];
      [by left | right; split; [done|]; apply (Hlater ""); [by left | done]]].
  destruct (nonempty v) eqn:Hne0; simpl in Hin;
    [|destruct Hin as [?|[Hnot Hex]];
      [by left | right; split; [done|]; apply (Hlater ""); [by left | done]]].
  destruct (in_keys v acc) eqn:Hkeys; simpl in Hin.
  - apply in_keys_spec in Hkeys. destruct Hin as [?|[Hnot Hex]]; [by left|]. right.
    split; [done|]. apply (Hlater v); [|done]. right. split; [done|]. by intros ->.
  - destruct Hin as [Hin | [Hnot Hex]].
    + apply elem_of_app in Hin as [Hin | Hin]; [by left|].
      apply list_elem_of_singleton in Hin. injection Hin as -> ->. right. split.
      * intros Hv. apply in_keys_spec in Hv. congruence.
      * exists [], e0, entries. repeat split; [|apply not_elem_of_nil].
        unfold item_key. by rewrite Hv0, Hne0.
    + rewrite fmap_app, not_elem_of_app in Hnot. destruct Hnot as [Hnot Hne].
      right. split; [done|]. apply (Hlater v); [|done]. right. split; [done|].
      intros ->. apply Hne. apply list_elem_of_here.
Qed.

(** X18. Each unique id is fetched from the cleaned URL of the first entry
    that carries it: a later entry with the same id but another URL does
    not change the URL of the download. *)
Theorem unique_id_keeps_first_url (entries : list entry) (vid u : string) :
  (vid, u) ∈ collect_unique_ids entries [] →
  ∃ before e after,
    entries = before ++ e :: after
    ∧ item_key e = Some vid ∧ u = url_clean e ∧ vid ∉ item_keys before.
Proof.
  intros Hin. apply collect_unique_ids_first in Hin as [Hin | [_ Hex]]; [|done].
  by apply elem_of_nil in Hin.
Qed.

Lemma unique_id_keeps_first_url_witness :
  ∃ before e after,
    read_excel Sample.decimal Sample.worklist = before ++ e :: after
    ∧ item_key e = Some "100" ∧ "https://vimeo.com/100" = url_clean e
    ∧ "100" ∉ item_keys before.
Proof.
  apply (unique_id_keeps_first_url (read_excel Sample.decimal Sample.worklist) "100"
           "https://vimeo.com/100").
  vm_compute. apply list_elem_of_here.
Defined.

(** ** [format_duration] *)

Lemma pad2_two_digits (n : Z) : (0 ≤ n < 60)%Z → pad2 n = two_digits n.
Proof.
  intros Hn.
  assert (∃ k : nat, (k < 60)%nat ∧ n = Z.of_nat k) as (k & Hk & ->)
    by (exists (Z.to_nat n); lia).
  clear Hn. do 60 (destruct k as [|k]; [reflexivity|]). lia.
Qed.

Lemma hms_fields (seconds : Z) :
  hms seconds
  = ((seconds / 3600)%Z, ((seconds mod 3600) / 60)%Z, (seconds mod 60)%Z).
Proof.
  unfold hms.
  assert (H1 : (seconds / 60 / 60 = seconds / 3600)%Z).
  { rewrite Z.div_div by lia. reflexivity. }
  assert (H2 : ((seconds / 60) mod 60 = (seconds mod 3600) / 60)%Z).
  { Z.div_mod_to_equations. lia. }
  by rewrite H1, H2.
Qed.

(** What [format_duration] prints for an integer number of seconds. *)
Lemma format_hms_fields (n : Z) :
  ∃ h mi s,
    (0 ≤ mi < 60 ∧ 0 ≤ s < 60 ∧ n = 3600 * h + 60 * mi + s)%Z
    ∧ format_hms n
      = if (3600 <=? n)%Z
        then Str.of_Z h +:+ "h " +:+ two_digits mi +:+ "m " +:+ two_digits s +:+ "s"
        else Str.of_Z mi +:+ "m " +:+ two_digits s +:+ "s".
Proof.
  pose proof (Z.mod_pos_bound n 3600 eq_refl) as Hr.
  pose proof (Z.mod_pos_bound n 60 eq_refl) as Hs.
  pose proof (Z.div_mod n 3600) as Hd.
  assert (Hm : (0 ≤ (n mod 3600) / 60 < 60)%Z).
  { split; [apply Z.div_pos; lia | apply Z.div_lt_upper_bound; lia]. }
  assert (Hsum : (n = 3600 * (n / 3600) + 60 * ((n mod 3600) / 60) + n mod 60)%Z).
  { Z.div_mod_to_equations. lia. }
  exists (n / 3600)%Z, ((n mod 3600) / 60)%Z, (n mod 60)%Z.
  split; [by repeat split; try lia|].
  unfold format_hms. rewrite hms_fields, !pad2_two_digits by done.
  assert (Hbranch : (0 <? n / 3600)%Z = (3600 <=? n)%Z).
  { destruct (Z.leb_spec 3600 n) as [Hge | Hlt].
    - apply Z.ltb_lt. apply Z.div_str_pos. lia.
    - apply Z.ltb_ge. assert (n / 3600 < 1)%Z; [|lia]. apply Z.div_lt_upper_bound; lia. }
  by rewrite Hbranch.
Qed.

(** [int] cuts the value of a finite float towards zero. *)
Lemma py_int_finite (sign : bool) (m : positive) (e : Z) :
  ∃ n, py_int (S754_finite sign m e) = inr n ∧ cut_to sign m e n.
Proof.
  eexists. split; [reflexivity|].
  assert (Hv : (0 ≤ Z.shiftl (Z.pos m) e)%Z) by (apply Z.shiftl_nonneg; lia).
  assert (Habs : Z.abs (if sign then (- Z.shiftl (Z.pos m) e)%Z else Z.shiftl (Z.pos m) e)
                 = Z.shiftl (Z.pos m) e) by (destruct sign; lia).
  unfold cut_to. rewrite Habs. split; [destruct sign; lia|]. split.
  - intros He. by rewrite Z.shiftl_mul_pow2.
  - intros He. rewrite Z.shiftl_div_pow2 by lia.
    assert (Hd : (0 < 2 ^ (- e))%Z) by (apply Z.pow_pos_nonneg; lia).
    pose proof (Z.div_mod (Z.pos m) (2 ^ (- e))) as Hdm.
    pose proof (Z.mod_pos_bound (Z.pos m) (2 ^ (- e)) Hd) as Hmod.
    nia.
Qed.

(** X19. [format_duration] raises on a float that is not finite (a
    [ValueError] on NaN, an [OverflowError] on an infinity) and otherwise
    formats the value cut towards zero to an integer [n]: with [n] split
    into hours, minutes below 60 and seconds below 60 that add up to [n],
    it prints hours, two-digit minutes and two-digit seconds when [n] is
    3600 or more, and minutes and two-digit seconds otherwise; so a
    negative [n] prints as the minutes and seconds of its remainder modulo
    one hour. *)
Theorem format_duration_fields (seconds : spec_float) :
  match seconds with
  | S754_nan =>
      format_duration seconds = inl NaNToInteger
      ∧ int_error_exn NaNToInteger = ValueError
  | S754_infinity _ =>
      format_duration seconds = inl InfinityToInteger
      ∧ int_error_exn InfinityToInteger = OverflowError
  | S754_zero _ => format_duration seconds = inr "0m 00s"
  | S754_finite sign m e =>
      ∃ n h mi s,
        cut_to sign m e n
        ∧ (0 ≤ mi < 60 ∧ 0 ≤ s < 60 ∧ n = 3600 * h + 60 * mi + s)%Z
        ∧ format_duration seconds
          = inr (if (3600 <=? n)%Z
                 then Str.of_Z h +:+ "h " +:+ two_digits mi +:+ "m " +:+ two_digits s +:+ "s"
                 else Str.of_Z mi +:+ "m " +:+ two_digits s +:+ "s")
  end.
Proof.
  destruct seconds as [sign|sign| |sign m e]; try done.
  destruct (py_int_finite sign m e) as (n & Hint & Hcut).
  destruct (format_hms_fields n) as (h & mi & s & Hfields & Hformat).
  exists n, h, mi, s. split; [done|]. split; [done|].
  unfold format_duration. by rewrite Hint, Hformat.
Qed.

(** 3725.9 seconds; 5 seconds before zero; the sum of the two infinities. *)
Example format_duration_samples :
  format_duration (S754_finite false 8193340747861197 (-41)) = inr "1h 02m 05s"
  ∧ format_duration (float_of_Z (-5)) = inr "59m 55s"
  ∧ format_duration (float_add (S754_infinity false) (S754_infinity true))
    = inl NaNToInteger.
Proof. vm_compute. repeat split. Qed.

(** ** [find_excel_file] *)

Lemma first_such_found (test : string → bool) (xs : list string) :
  first_such test xs ≠ "" →
  first_such test xs ∈ xs ∧ test (first_such test xs) = true.
Proof.
  induction xs as [|x xs IH]; simpl; [done|].
  destruct (test x) eqn:Hx.
  - intros _. split; [apply list_elem_of_here | done].
  - intros Hne. destruct (IH Hne) as [Hin Ht]. split; [by apply list_elem_of_further | done].
Qed.

Lemma first_such_none (test : string → bool) (xs : list string) :
  test "" = false →
  first_such test xs = "" → ∀ x, x ∈ xs → test x = false.
Proof.
  intros Hempty. induction xs as [|x xs IH]; simpl; intros Hnone y Hin.
  - by apply elem_of_nil in Hin.
  - destruct (test x) eqn:Hx; [congruence|].
    apply elem_of_cons in Hin as [-> | Hin]; [done | by apply IH].
Qed.

Lemma os_path_join_nonempty (a b : string) : b ≠ "" → os_path_join a b ≠ "".
Proof.
  intros Hb. unfold os_path_join.
  destruct (String.eqb a "" || ends_with "/" a).
  - destruct a as [|c a]; [exact Hb | by rewrite str_app_cons].
  - destruct a as [|c a]; [by vm_compute | by rewrite str_app_cons].
Qed.

(** X20. [find_excel_file] returns the worklist in the current directory
    when it exists, else the one in the Downloads folder when it exists,
    else a name listed in the current directory that contains "v5", ends
    in ".xlsx" and does not start with "~" (never an Office lock file);
    it returns the empty string only when neither file exists and no
    listed name qualifies. *)
Theorem find_excel_file_result (home : string) (cwd_listing : list string)
    (fs : gmap string fcontent) :
  let here := os_path_join "." EXCEL_FILENAME in
  let downloads := os_path_join (os_path_join home "Downloads") EXCEL_FILENAME in
  let found := find_excel_file home cwd_listing fs in
  (path_exists fs here = true → found = here)
  ∧ (path_exists fs here = false → path_exists fs downloads = true → found = downloads)
  ∧ (path_exists fs here = false → path_exists fs downloads = false →
     found ≠ "" → found ∈ cwd_listing ∧ looks_like_worklist found = true
                  ∧ starts_with "~" found = false)
  ∧ (found = "" →
     path_exists fs here = false ∧ path_exists fs downloads = false
     ∧ ∀ f, f ∈ cwd_listing → looks_like_worklist f = false).
Proof.
  intros here downloads found. unfold found, find_excel_file. fold here downloads.
  assert (Hhere : here ≠ "") by (by vm_compute).
  assert (Hdown : downloads ≠ "").
  { apply os_path_join_nonempty. by vm_compute. }
  simpl. destruct (path_exists fs here) eqn:H1.
  - destruct here; [done|]. repeat split; try done.
  - destruct (path_exists fs downloads) eqn:H2.
    + destruct downloads; [done|]. repeat split; try done.
    + simpl. split; [done|]. split; [done|]. split.
      * intros _ _ Hne. destruct (first_such_found _ _ Hne) as [Hin Htest].
        split; [done|]. split; [done|].
        unfold looks_like_worklist in Htest. apply andb_true_iff in Htest as [_ Htest].
        by apply negb_true_iff in Htest.
      * intros Hnone. split; [done|]. split; [done|]. intros f Hin.
        by apply (first_such_none looks_like_worklist cwd_listing eq_refl Hnone).
Qed.

Lemma find_excel_file_result_witness :
  find_excel_file "/home/u" ["~$plan_v5.xlsx"; "plan_v5.xlsx"] ∅ = "plan_v5.xlsx".
Proof.
  pose proof (find_excel_file_result "/home/u" ["~$plan_v5.xlsx"; "plan_v5.xlsx"] ∅) as H.
  simpl in H. destruct H as (_ & _ & Hlisted & _).
  destruct (Hlisted eq_refl eq_refl) as (Hin & _ & Htilde); [by vm_compute|].
  apply elem_of_cons in Hin as [Heq | Hin].
  - rewrite Heq in Htilde. vm_compute in Htilde. discriminate Htilde.
  - by apply list_elem_of_singleton in Hin.
Defined.

(** ** The script and its own checkpoints *)

Section OwnCheckpoint.

Implicit Types (s st : state) (vid : string) (r : gmap string jval).
















End OwnCheckpoint.


